(** * Gaffer: SubTree re-rooting and Reference reloading

    A shallow embedding of [GafferScene::SubTree] and [Gaffer::Reference]
    (SubTree.cpp and Reference.cpp), with the properties the design document
    states about them.

    Strings are [string] (one [ascii] per C++ [char]); the members of a
    [CompoundObject] or [CompoundData] form a [gmap] keyed by [string];
    C++ exceptions are the [Throw] branch of [Result]. *)

From stdpp Require Import gmap strings list fin_maps.
From Stdlib Require Import ZArith Ascii.

(** ** Exceptions *)

(** The exceptions the modelled code can raise: [std::out_of_range] from the
    substring constructor of [std::string], and [IECore::Exception] with its
    message.  Both derive from [std::exception]. *)
Inductive Exception :=
  | OutOfRange
  | IECoreException (what : string).

Inductive Result (A : Type) :=
  | Ok (a : A)
  | Throw (e : Exception).
Arguments Ok {A} a.
Arguments Throw {A} e.

Definition isOk {A} (r : Result A) : bool :=
  match r with Ok _ => true | Throw _ => false end.

(** ** Strings *)

(** [std::string::size]. *)
Definition size (s : string) : nat := String.length s.

(** The characters of [s] from position [pos] on. *)
Fixpoint dropChars (pos : nat) (s : string) : string :=
  match pos, s with
  | O, _ => s
  | S _, EmptyString => EmptyString
  | S n, String _ s' => dropChars n s'
  end.

(** [std::string( str, pos )]: the substring of [str] from [pos] to the end;
    [std::out_of_range] when [pos > str.size()]. *)
Definition substringFrom (str : string) (pos : nat) : Result string :=
  if (pos <=? size str)%nat then Ok (dropChars pos str) else Throw OutOfRange.

(** [boost::starts_with( s, prefix )]. *)
Definition starts_with (s prefix : string) : bool := String.prefix prefix s.

(** ** The tokenizer *)

Section Tokenizer.

(** [boost::char_separator<char>( delim )]: one dropped delimiter, no kept
    delimiter, empty tokens dropped. *)
Variable delim : ascii.

Definition is_dropped (c : ascii) : bool := Ascii.eqb c delim.

(** The tokenizer function skips every dropped delimiter in front of the
    next token. *)
Fixpoint skipDropped (s : string) : string :=
  match s with
  | EmptyString => EmptyString
  | String c s' => if is_dropped c then skipDropped s' else s
  end.

(** It then appends the characters up to the next delimiter (or the end)
    to the token, and leaves the iterator there. *)
Fixpoint takeToken (s : string) : string * string :=
  match s with
  | EmptyString => (EmptyString, EmptyString)
  | String c s' =>
      if is_dropped c then (EmptyString, s)
      else let '(tok, rest) := takeToken s' in (String c tok, rest)
  end.

(** The token sequence from [begin()] to [end()]: it ends when only
    delimiters are left.  [fuel] bounds the number of tokens. *)
Fixpoint tokensFrom (fuel : nat) (s : string) : list string :=
  match fuel with
  | O => []
  | S fuel' =>
      match skipDropped s with
      | EmptyString => []
      | start =>
          let '(tok, rest) := takeToken start in
          tok :: tokensFrom fuel' rest
      end
  end.

(** A string of [n] characters has at most [n] tokens. *)
Definition Tokenizer (s : string) : list string := tokensFrom (size s) s.

(** The words of the specification: the string cut at every delimiter ... *)
Fixpoint splitOn (s : string) : list string :=
  match s with
  | EmptyString => [EmptyString]
  | String c s' =>
      if Ascii.eqb c delim then EmptyString :: splitOn s'
      else match splitOn s' with
           | [] => [String c EmptyString]
           | seg :: segs => String c seg :: segs
           end
  end.

Definition nonEmpty (s : string) : bool :=
  match s with EmptyString => false | _ => true end.

(** ... with the empty segments dropped. *)
Definition segments (s : string) : list string :=
  List.filter nonEmpty (splitOn s).

End Tokenizer.

(** ** SubTree *)

Module SubTree.

(** [SceneNode::ScenePath], a vector of names. *)
Definition ScenePath := list string.

(** The segments of a root string, as the specification describes them. *)
Definition rootSegments (root : string) : ScenePath := segments "/" root.

(** *** The scene plug *)

Section Scene.

(** Value types of the scene facets, and the hash digest; they belong to
    Imath and IECore. *)
Context {Box3f M44f Payload Data MurmurHash : Type}.

(** [IECore::Object] as far as the globals need it: a [CompoundData]
    with its members, or any other object. *)
Inductive Object :=
  | CompoundData (readable : gmap string Data)
  | OtherObject (payload : Payload).

(** [IECore::CompoundObject]: named members. *)
Definition CompoundObject := gmap string Object.

(** The input [ScenePlug], seen through its accessors. *)
Record ScenePlug := {
  bound : ScenePath → Box3f;
  transform : ScenePath → M44f;
  attributes : ScenePath → CompoundObject;
  object : ScenePath → Object;
  childNames : ScenePath → list string;
  globals : CompoundObject;
  boundHash : ScenePath → MurmurHash;
  transformHash : ScenePath → MurmurHash;
  attributesHash : ScenePath → MurmurHash;
  objectHash : ScenePath → MurmurHash;
  childNamesHash : ScenePath → MurmurHash;
  globalsHash : MurmurHash
}.

(** The plugs whose hash or value a [SubTree] is asked for: a child of
    its output [ScenePlug], or some other plug. *)
Inductive OutputPlug :=
  | boundPlug | transformPlug | attributesPlug | objectPlug
  | childNamesPlug | globalsPlug
  | otherPlug (name : string).

(** [Gaffer::Context], with the entry [ScenePlug::scenePathContextName]. *)
Record Context := { scenePath : ScenePath }.

(** The node: its input scene and the value of its [root] plug. *)
Record SubTree := {
  inPlug : ScenePlug;
  rootPlug : string
}.

(** [SubTree::sourcePath]. *)
Definition sourcePath (self : SubTree) (outputPath : ScenePath) : ScenePath :=
  let rootAsString := rootPlug self in
  let result := Tokenizer "/" rootAsString in
  result ++ outputPath.

(** [SubTree::computeBound]. *)
Definition computeBound (self : SubTree) (path : ScenePath) : Box3f :=
  bound (inPlug self) (sourcePath self path).

(** [SubTree::computeTransform]. *)
Definition computeTransform (self : SubTree) (path : ScenePath) : M44f :=
  transform (inPlug self) (sourcePath self path).

(** [SubTree::computeAttributes]. *)
Definition computeAttributes (self : SubTree) (path : ScenePath) : CompoundObject :=
  attributes (inPlug self) (sourcePath self path).

(** [SubTree::computeObject]. *)
Definition computeObject (self : SubTree) (path : ScenePath) : Object :=
  object (inPlug self) (sourcePath self path).

(** [SubTree::computeChildNames]. *)
Definition computeChildNames (self : SubTree) (path : ScenePath) : list string :=
  childNames (inPlug self) (sourcePath self path).

(** The hashing collaborators: what [SceneProcessor::hash] leaves in the
    digest for an output and a context, [MurmurHash::append] of another
    digest (as [ValuePlug::hash( h )] does), and the digest of a string
    plug's value. *)
Context (SceneProcessor_hash : OutputPlug → Context → MurmurHash → MurmurHash)
        (append : MurmurHash → MurmurHash → MurmurHash)
        (stringHash : string → MurmurHash).

(** [SubTree::hash]. *)
Definition hash (self : SubTree) (output : OutputPlug) (context : Context)
    (h : MurmurHash) : MurmurHash :=
  let h := SceneProcessor_hash output context h in
  match output with
  | otherPlug _ => h
  | globalsPlug =>
      let h := append h (globalsHash (inPlug self)) in
      append h (stringHash (rootPlug self))
  | _ =>
      let path := scenePath context in
      let source := sourcePath self path in
      match output with
      | boundPlug => boundHash (inPlug self) source
      | transformPlug =>
          if (0 <? length path)%nat then transformHash (inPlug self) source else h
      | attributesPlug =>
          if (0 <? length path)%nat then attributesHash (inPlug self) source else h
      | objectPlug =>
          if (0 <? length path)%nat then objectHash (inPlug self) source else h
      | childNamesPlug => childNamesHash (inPlug self) source
      | _ => h
      end
  end.

(** The loop of [SubTree::computeGlobals] over the entries of the input
    forward declarations, in iteration order: each key loses its first
    [root.size()] characters and the entry is assigned into the new
    [CompoundData]. *)
Fixpoint rewriteForwardDeclarations (root : string)
    (entries : list (string * Data)) (forwardDeclarations : gmap string Data)
    : Result (gmap string Data) :=
  match entries with
  | [] => Ok forwardDeclarations
  | (inputPath, value) :: rest =>
      match substringFrom inputPath (size root) with
      | Ok outputPath =>
          rewriteForwardDeclarations root rest (<[outputPath := value]> forwardDeclarations)
      | Throw e => Throw e
      end
  end.

(** [SubTree::computeGlobals].  The entries of the input map are visited
    in the order of [map_to_list]. *)
Definition computeGlobals (self : SubTree) : Result CompoundObject :=
  let result := globals (inPlug self) in
  match result !! "gaffer:forwardDeclarations" with
  | Some (CompoundData inputForwardDeclarations) =>
      let root := rootPlug self in
      match rewriteForwardDeclarations root (map_to_list inputForwardDeclarations) ∅ with
      | Ok forwardDeclarations =>
          Ok (<["gaffer:forwardDeclarations" := CompoundData forwardDeclarations]> result)
      | Throw e => Throw e
      end
  | _ => Ok result
  end.

(** The default values of the facets a scene root has. *)
Context (identityTransform : M44f) (nullObject : Object).

(** Modelled from the spec: the dispatch of the base class
    [SceneNode::compute], which is not among the sources.  It calls the
    virtual [computeTransform], [computeAttributes] and [computeObject]
    only below the root; at the empty path the facet takes its default
    value (identity transform, no attributes, null object).  Bounds and
    child names are computed at every path. *)
Definition transformValue (self : SubTree) (context : Context) : M44f :=
  match scenePath context with
  | [] => identityTransform
  | path => computeTransform self path
  end.

Definition attributesValue (self : SubTree) (context : Context) : CompoundObject :=
  match scenePath context with
  | [] => ∅
  | path => computeAttributes self path
  end.

Definition objectValue (self : SubTree) (context : Context) : Object :=
  match scenePath context with
  | [] => nullObject
  | path => computeObject self path
  end.

End Scene.

(** *** Example scenes *)

(** A scene over integers: every facet of a location is the length of its
    path (shifted per facet), objects carry integer payloads. *)
Definition exampleGlobals (fwd : gmap string Z) : @CompoundObject Z Z :=
  {[ "gaffer:forwardDeclarations" := CompoundData fwd;
     "option:render:camera" := OtherObject 7%Z ]}.

Definition exampleScene (fwd : gmap string Z) : @ScenePlug Z Z Z Z Z := {|
  bound path := Z.of_nat (length path);
  transform path := (100 + Z.of_nat (length path))%Z;
  attributes path := {[ "name" := OtherObject (Z.of_nat (length path)) ]};
  object path := OtherObject (200 + Z.of_nat (length path))%Z;
  childNames path := path;
  globals := exampleGlobals fwd;
  boundHash path := (300 + Z.of_nat (length path))%Z;
  transformHash path := (400 + Z.of_nat (length path))%Z;
  attributesHash path := (500 + Z.of_nat (length path))%Z;
  objectHash path := (600 + Z.of_nat (length path))%Z;
  childNamesHash path := (700 + Z.of_nat (length path))%Z;
  globalsHash := 800%Z
|}.

Definition exampleSubTree (root : string) (fwd : gmap string Z) : SubTree :=
  {| inPlug := exampleScene fwd; rootPlug := root |}.

End SubTree.

(** ** Reference *)

Module Reference.

(** *** Plugs *)

(** The identity of a [Plug] object (its address in the C++ code). *)
Definition PlugId := nat.

(** [Plug::Direction]. *)
Inductive Direction := In | Out.

(** The [IECore::Data] values plugs and metadata hold. *)
Inductive Data :=
  | IntData (readable : Z)
  | BoolData (readable : bool)
  | StringData (readable : string).

#[global] Instance Data_eq_dec : EqDecision Data.
Proof. solve_decision. Defined.

#[global] Instance Direction_eq_dec : EqDecision Direction.
Proof. solve_decision. Defined.

(** A plug with the children [GraphComponent::children()] holds, in order.
    [defaultValue] is the default of a [ValuePlug]; a plug that is not a
    [ValuePlug] has none.  [dynamic] is the flag [Plug::Dynamic]. *)
#[local] Unset Elimination Schemes.
Inductive Plug := mkPlug {
  plugId : PlugId;
  getName : string;
  direction : Direction;
  dynamic : bool;
  defaultValue : option Data;
  children : list Plug
}.
#[local] Set Elimination Schemes.

(** A child node of the reference, with its plugs. *)
Record Node := mkNode {
  nodeName : string;
  nodePlugs : list Plug
}.

(** A child of the reference node: a plug or a node. *)
Inductive GraphComponent :=
  | PlugComponent (plug : Plug)
  | NodeComponent (node : Node).

(** [plug->setName( name )]. *)
Definition withName (name : string) (plug : Plug) : Plug :=
  mkPlug (plugId plug) name (direction plug) (dynamic plug) (defaultValue plug)
    (children plug).

(** [plug->setFlags( Plug::Dynamic, enable )]. *)
Definition withDynamic (enable : bool) (plug : Plug) : Plug :=
  mkPlug (plugId plug) (getName plug) (direction plug) enable (defaultValue plug)
    (children plug).

Definition withChildren (cs : list Plug) (plug : Plug) : Plug :=
  mkPlug (plugId plug) (getName plug) (direction plug) (dynamic plug)
    (defaultValue plug) cs.

(** A plug and all its descendants, parents first. *)
Fixpoint flatten (plug : Plug) : list Plug :=
  match plug with
  | mkPlug _ _ _ _ _ cs =>
      plug :: (fix each (cs : list Plug) : list Plug :=
                 match cs with
                 | [] => []
                 | c :: cs' => flatten c ++ each cs'
                 end) cs
  end.

Definition flattenAll (plugs : list Plug) : list Plug := flat_map flatten plugs.

(** [RecursivePlugIterator it( plug )]: the descendants of a plug. *)
Definition descendants (plug : Plug) : list Plug := flattenAll (children plug).

(** The plug of identity [id] replaced by [f] of it, wherever it is below
    [plug]. *)
Fixpoint updatePlug (id : PlugId) (f : Plug → Plug) (plug : Plug) : Plug :=
  match plug with
  | mkPlug id' name dir dyn def cs =>
      let plug' := mkPlug id' name dir dyn def (List.map (updatePlug id f) cs) in
      if bool_decide (id' = id) then f plug' else plug'
  end.

(** The plug of identity [id] taken out of its parent's children. *)
Fixpoint removePlug (id : PlugId) (plug : Plug) : Plug :=
  match plug with
  | mkPlug id' name dir dyn def cs =>
      mkPlug id' name dir dyn def
        ((fix each (cs : list Plug) : list Plug :=
            match cs with
            | [] => []
            | c :: cs' =>
                if bool_decide (plugId c = id) then each cs'
                else removePlug id c :: each cs'
            end) cs)
  end.

(** [plug->getChild<Plug>( name )]. *)
Definition getChild (plug : Plug) (name : string) : option Plug :=
  List.find (λ c, String.eqb (getName c) name) (children plug).

(** [runTimeCast<ValuePlug>( plug )] succeeds. *)
Definition isValuePlug (plug : Plug) : bool :=
  match defaultValue plug with Some _ => true | None => false end.

(** *** The graph *)

(** What metadata is registered on: the reference node or one of the
    plugs. *)
Definition Target := option PlugId.

(** The state the reference node lives in.
    - [scriptNode]: whether [scriptNode()] is non-null;
    - [nodeChildren]: [children()] of the reference node, in order;
    - [elsewhere]: the plugs of the other nodes of the script;
    - [inputs]: [Plug::getInput] of every connected plug;
    - [values]: the value set on a [ValuePlug] (its default when absent);
    - [metadata]: the instance metadata, each value with its persistence;
    - [m_fileName]: the member of that name. *)
Record Graph := mkGraph {
  scriptNode : bool;
  name : string;
  nodeChildren : list GraphComponent;
  elsewhere : list Plug;
  inputs : gmap PlugId PlugId;
  values : gmap PlugId Data;
  metadata : gmap (Target * string) (Data * bool);
  m_fileName : string
}.

Definition withNodeChildren (f : list GraphComponent → list GraphComponent)
    (g : Graph) : Graph :=
  mkGraph (scriptNode g) (name g) (f (nodeChildren g)) (elsewhere g) (inputs g)
    (values g) (metadata g) (m_fileName g).

Definition withInputs (f : gmap PlugId PlugId → gmap PlugId PlugId) (g : Graph) : Graph :=
  mkGraph (scriptNode g) (name g) (nodeChildren g) (elsewhere g) (f (inputs g))
    (values g) (metadata g) (m_fileName g).

Definition withValues (f : gmap PlugId Data → gmap PlugId Data) (g : Graph) : Graph :=
  mkGraph (scriptNode g) (name g) (nodeChildren g) (elsewhere g) (inputs g)
    (f (values g)) (metadata g) (m_fileName g).

Definition withMetadata
    (f : gmap (Target * string) (Data * bool) → gmap (Target * string) (Data * bool))
    (g : Graph) : Graph :=
  mkGraph (scriptNode g) (name g) (nodeChildren g) (elsewhere g) (inputs g)
    (values g) (f (metadata g)) (m_fileName g).

Definition withFileName (fileName : string) (g : Graph) : Graph :=
  mkGraph (scriptNode g) (name g) (nodeChildren g) (elsewhere g) (inputs g)
    (values g) (metadata g) fileName.

(** [PlugIterator it( this )]: the children of the node that are plugs. *)
Definition plugChildren (g : Graph) : list Plug :=
  omap (λ c, match c with PlugComponent p => Some p | NodeComponent _ => None end)
    (nodeChildren g).

(** The children of the node that are nodes. *)
Definition nodeComponents (g : Graph) : list Node :=
  omap (λ c, match c with NodeComponent n => Some n | PlugComponent _ => None end)
    (nodeChildren g).

(** Every plug of the script: those of the reference node, of its child
    nodes and of the other nodes. *)
Definition allPlugs (g : Graph) : list Plug :=
  flattenAll (plugChildren g)
  ++ flattenAll (flat_map nodePlugs (nodeComponents g))
  ++ flattenAll (elsewhere g).

(** The plug object of identity [id]. *)
Definition findPlug (id : PlugId) (g : Graph) : option Plug :=
  List.find (λ p, bool_decide (plugId p = id)) (allPlugs g).

(** [userPlug()]: the plug the [Node] constructor adds first. *)
Definition userPlug (g : Graph) : option Plug :=
  match nodeChildren g with
  | PlugComponent user :: _ => Some user
  | _ => None
  end.

(** [plug->outputs()]: the plugs whose input is [plug]. *)
Definition outputs (plug : Plug) (g : Graph) : list Plug :=
  List.filter (λ o, bool_decide (inputs g !! plugId o = Some (plugId plug))) (allPlugs g).

(** [plug->getValue()] of a plug without input. *)
Definition getValue (plug : Plug) (g : Graph) : option Data :=
  match values g !! plugId plug with
  | Some v => Some v
  | None => defaultValue plug
  end.

(** [plug->isSetToDefault()]. *)
Definition isSetToDefault (plug : Plug) (g : Graph) : bool :=
  bool_decide (getValue plug g = defaultValue plug).

(** [descendant<Plug>( relativePath )]: the names of the path, separated by
    ['.'], followed from the reference node. *)
Fixpoint descendantOf (plug : Plug) (names : list string) : option Plug :=
  match names with
  | [] => Some plug
  | name :: names' =>
      match plug with
      | mkPlug _ _ _ _ _ cs =>
          (fix first (cs : list Plug) : option Plug :=
             match cs with
             | [] => None
             | c :: cs' =>
                 if String.eqb (getName c) name then descendantOf c names'
                 else first cs'
             end) cs
      end
  end.

Definition descendantAmong (plugs : list Plug) (names : list string) : option Plug :=
  match names with
  | [] => None
  | name :: names' =>
      match List.find (λ c, String.eqb (getName c) name) plugs with
      | Some c => descendantOf c names'
      | None => None
      end
  end.

Definition componentName (c : GraphComponent) : string :=
  match c with
  | PlugComponent p => getName p
  | NodeComponent n => nodeName n
  end.

Definition descendant (relativePath : string) (g : Graph) : option Plug :=
  match Tokenizer "." relativePath with
  | [] => None
  | name :: names =>
      match List.find (λ c, String.eqb (componentName c) name) (nodeChildren g) with
      | Some (PlugComponent p) => descendantOf p names
      | Some (NodeComponent n) => descendantAmong (nodePlugs n) names
      | None => None
      end
  end.

(** *** Messages and signals *)

(** What the world outside observes: a message of level [Msg::Warning]
    with its context and text, and the [referenceLoadedSignal] with the
    node as the slots find it. *)
Inductive Event :=
  | Warning (context message : string)
  | ReferenceLoaded (node : Graph).

Definition isWarning (e : Event) : bool :=
  match e with Warning _ _ => true | ReferenceLoaded _ => false end.

Record World := mkWorld {
  graph : Graph;
  log : list Event
}.

(** *** Statements *)

(** A statement changes the world and returns or throws; what it changed
    before throwing stays changed. *)
Definition M (A : Type) : Type := World → Result A * World.

#[global] Instance M_ret : MRet M := λ A a w, (Ok a, w).

#[global] Instance M_bind : MBind M := λ A B f m w,
  match m w with
  | (Ok a, w') => f a w'
  | (Throw e, w') => (Throw e, w')
  end.

Definition throw {A} (e : Exception) : M A := λ w, (Throw e, w).

(** [try { body } catch( const std::exception &e ) { handler }]. *)
Definition tryCatch (body : M unit) (handler : Exception → M unit) : M unit := λ w,
  match body w with
  | (Ok a, w') => (Ok a, w')
  | (Throw e, w') => handler e w'
  end.

Definition gets {A} (f : Graph → A) : M A := λ w, (Ok (f (graph w)), w).

Definition modify (f : Graph → Graph) : M unit := λ w,
  (Ok (), mkWorld (f (graph w)) (log w)).

Definition emit (e : Event) : M unit := λ w,
  (Ok (), mkWorld (graph w) (log w ++ [e])).

(** [e.what()]. *)
Definition what (e : Exception) : string :=
  match e with
  | OutOfRange => "basic_string"
  | IECoreException message => message
  end.

(** A loop over a container. *)
Fixpoint forEach {A} (l : list A) (body : A → M unit) : M unit :=
  match l with
  | [] => mret ()
  | x :: l' => body x ;; forEach l' body
  end.

(** A loop over a container that updates a local variable. *)
Fixpoint forEachWith {A S} (l : list A) (s : S) (body : S → A → M S) : M S :=
  match l with
  | [] => mret s
  | x :: l' => s' ← body s x; forEachWith l' s' body
  end.

(** *** Collaborators *)

(** What executing a reference file does to the node it is loaded into, in
    the order the script does it: children added to the node and plugs
    added to its user plug (each one caught by the [childAddedSignal]
    slots), connections made, values set and metadata registered (on the
    node, the serialiser's version among it); and whether any error
    occurred. *)
Inductive Addition :=
  | AddChild (child : GraphComponent)
  | AddUserPlug (plug : Plug).

Record Loaded := mkLoaded {
  additions : list Addition;
  connections : list (PlugId * PlugId);
  plugValues : list (PlugId * Data);
  registrations : list ((Target * string) * (Data * bool));
  hadErrors : bool
}.

(** The parts of Gaffer the reference relies on and that depend on plug
    types and on the file system: [Plug::acceptsInput] and the script a
    file holds, as [ScriptNode::executeFile] with [continueOnError] runs
    it. *)
Class Collaborators := {
  acceptsInput : Plug → Plug → bool;
  executeFile : string → Loaded
}.

Section Reference.

Context `{Collaborators}.

(** *** Connections and values *)

(** [plug->getInput()]. *)
Definition getInput (plug : Plug) (g : Graph) : option Plug :=
  inputs g !! plugId plug ≫= λ i, findPlug i g.

(** Modelled from the spec: [Plug::setInput] is not among the sources.
    A plug has at most one input; as the comment in
    [copyInputsAndValues] says, setting the input of a plug also sets the
    inputs of its descendants, each from the child of [input] at the same
    position (none when there is no input). *)
Fixpoint connect (plug : Plug) (input : option Plug)
    (table : gmap PlugId PlugId) : gmap PlugId PlugId :=
  match plug with
  | mkPlug id _ _ _ _ cs =>
      let table :=
        match input with
        | Some i => <[id := plugId i]> table
        | None => delete id table
        end in
      (fix each (cs inputChildren : list Plug) (table : gmap PlugId PlugId) :=
         match cs with
         | [] => table
         | c :: cs' => each cs' (tail inputChildren) (connect c (head inputChildren) table)
         end) cs (match input with Some i => children i | None => [] end) table
  end.

(** Modelled from the spec: an incompatible connection is an error. *)
Definition setInput (plug : Plug) (input : option Plug) : M unit :=
  match input with
  | Some i =>
      if acceptsInput plug i then modify (withInputs (connect plug input))
      else throw (IECoreException "Plug::setInput : input not accepted")
  | None => modify (withInputs (connect plug None))
  end.

Definition sameType (a b : Data) : bool :=
  match a, b with
  | IntData _, IntData _ | BoolData _, BoolData _ | StringData _, StringData _ => true
  | _, _ => false
  end.

(** Modelled from the spec: [ValuePlug::setFrom] is not among the
    sources.  The value of the other plug becomes the value of this one;
    a type mismatch is an error. *)
Definition setFrom (plug other : Plug) : M unit :=
  value ← gets (getValue other);
  match value, defaultValue plug with
  | Some v, Some d =>
      if sameType d v then modify (withValues (insert (plugId plug) v))
      else throw (IECoreException "Unsupported plug type")
  | _, _ => throw (IECoreException "Unsupported plug type")
  end.

(** [copyInputsAndValues]. The children of the destination are visited by
    index; plugs that grow children while inputs are set ([ArrayPlug]) are
    outside this model. *)
Fixpoint copyInputsAndValues (srcPlug dstPlug : Plug) (ignoreDefaultValues : bool)
    {struct dstPlug} : M unit :=
  input ← gets (getInput srcPlug);
  match input with
  | Some input => setInput dstPlug (Some input)
  | None =>
      match dstPlug with
      | mkPlug _ _ _ _ _ [] =>
          setInput dstPlug None ;;
          if isValuePlug srcPlug then
            srcDefault ← gets (isSetToDefault srcPlug);
            if negb ignoreDefaultValues || negb srcDefault then
              if isValuePlug dstPlug then setFrom dstPlug srcPlug else mret ()
            else mret ()
          else mret ()
      | mkPlug _ _ _ _ _ cs =>
          (fix each (cs : list Plug) : M unit :=
             match cs with
             | [] => mret ()
             | child :: cs' =>
                 match getChild srcPlug (getName child) with
                 | Some srcChildPlug =>
                     copyInputsAndValues srcChildPlug child ignoreDefaultValues
                 | None => mret ()
                 end ;;
                 each cs'
             end) cs
      end
  end.

(** [transferOutputs]. *)
Fixpoint transferOutputs (srcPlug dstPlug : Plug) {struct srcPlug} : M unit :=
  outs ← gets (outputs srcPlug);
  forEach outs (λ outputPlug, setInput outputPlug (Some dstPlug)) ;;
  match srcPlug with
  | mkPlug _ _ _ _ _ cs =>
      (fix each (cs : list Plug) : M unit :=
         match cs with
         | [] => mret ()
         | child :: cs' =>
             match getChild dstPlug (getName child) with
             | Some dstChildPlug => transferOutputs child dstChildPlug
             | None => mret ()
             end ;;
             each cs'
         end) cs
  end.

(** *** Metadata *)

(** [Metadata::registeredValues( plug, keys, instanceOnly, persistentOnly )]. *)
Definition registeredValues (target : Target) (persistentOnly : bool) (g : Graph)
    : list string :=
  omap (λ entry : (Target * string) * (Data * bool),
          let '((t, key), (_, persistent)) := entry in
          if bool_decide (t = target) && (negb persistentOnly || persistent)
          then Some key else None)
    (map_to_list (metadata g)).

(** [Metadata::registerValue( plug, key, value, persistent )]. *)
Definition registerValue (target : Target) (key : string) (value : Data)
    (persistent : bool) : M unit :=
  modify (withMetadata (insert (target, key) (value, persistent))).

(** Modelled from the spec: [MetadataAlgo::copy] is not among the
    sources.  Every value registered on the old plug is registered on the
    new one, as persistent as it was. *)
Definition MetadataAlgo_copy (from to : Plug) : M unit :=
  keys ← gets (registeredValues (Some (plugId from)) false);
  forEach keys (λ key,
    entry ← gets (λ g, metadata g !! (Some (plugId from), key));
    match entry with
    | Some (value, persistent) => registerValue (Some (plugId to)) key value persistent
    | None => mret ()
    end).

(** [Reference::convertPersistentMetadata]. *)
Definition convertPersistentMetadata (plug : Plug) : M unit :=
  keys ← gets (registeredValues (Some (plugId plug)) true);
  forEach keys (λ key,
    entry ← gets (λ g, metadata g !! (Some (plugId plug), key));
    match entry with
    | Some (value, _) => registerValue (Some (plugId plug)) key value false
    | None => mret ()
    end).

(** [Metadata::value<IECore::IntData>( this, key )]. *)
Definition nodeIntValue (key : string) (g : Graph) : option Z :=
  match metadata g !! (None, key) with
  | Some (IntData v, _) => Some v
  | _ => None
  end.

(** *** The plugs a reference brought *)

(** Where a plug hangs: directly under the reference node, under
    another plug, or under nothing that is a plug or the node (a null
    parent, another node). *)
Inductive Parent :=
  | ThisNode
  | ParentPlug (plug : Plug) (parent : Parent)
  | OtherParent.

(** The loop of [Reference::isReferencePlug]: the ancestor of the plug
    that is a direct child of the node; none when the walk leaves the
    plugs before it reaches the node. *)
Fixpoint ancestorPlug (ancestor : Plug) (parent : Parent) : option Plug :=
  match parent with
  | ThisNode => Some ancestor
  | ParentPlug plug parent' => ancestorPlug plug parent'
  | OtherParent => None
  end.

(** [Reference::isReferencePlug].  Plugs are compared by identity. *)
Definition isReferencePlug (plug : Plug) (parent : Parent) (g : Graph) : bool :=
  let ancestor := ancestorPlug plug parent in
  if match ancestor with
     | Some a => starts_with (getName a) "__"
     | None => false
     end
  then false
  else if bool_decide (Some (plugId plug) = plugId <$> userPlug g) then false
  else if bool_decide (plugId <$> ancestor = plugId <$> userPlug g) && dynamic plug
  then false
  else true.

(** *** Changes to the children of the node *)

Definition updateComponent (id : PlugId) (f : Plug → Plug) (c : GraphComponent)
    : GraphComponent :=
  match c with
  | PlugComponent p => PlugComponent (updatePlug id f p)
  | NodeComponent n => NodeComponent n
  end.

(** [plug->setName( name )]. *)
Definition setName (plug : Plug) (name : string) : M unit :=
  modify (withNodeChildren (List.map (updateComponent (plugId plug) (withName name)))).

(** [plug->setFlags( Plug::Dynamic, enable )]. *)
Definition setFlagsDynamic (plug : Plug) (enable : bool) : M unit :=
  modify (withNodeChildren (List.map (updateComponent (plugId plug) (withDynamic enable)))).

(** Modelled from the spec: removing a plug disconnects all its edges.
    The connections to and from the plugs of [ids] are dropped. *)
Definition disconnect (ids : list PlugId) (table : gmap PlugId PlugId)
    : gmap PlugId PlugId :=
  filter (λ edge : PlugId * PlugId, (fst edge ∉ ids) ∧ (snd edge ∉ ids)) table.

(** [removeChild( node )] for a child node. *)
Definition removeChildNode (node : Node) : M unit :=
  modify (λ g,
    withInputs (disconnect (plugId <$> flattenAll (nodePlugs node)))
      (withNodeChildren
         (List.filter (λ c, match c with
                            | NodeComponent n =>
                                negb (String.eqb (nodeName n) (nodeName node))
                            | PlugComponent _ => true
                            end)) g)).

Definition removeComponentPlug (id : PlugId) (cs : list GraphComponent)
    : list GraphComponent :=
  omap (λ c, match c with
             | PlugComponent p =>
                 if bool_decide (plugId p = id) then None
                 else Some (PlugComponent (removePlug id p))
             | NodeComponent n => Some (NodeComponent n)
             end) cs.

(** [oldPlug->parent()->removeChild( oldPlug )]. *)
Definition removeChildPlug (id : PlugId) : M unit :=
  old ← gets (findPlug id);
  modify (λ g,
    withInputs (disconnect (plugId <$> from_option flatten [] old))
      (withNodeChildren (removeComponentPlug id) g)).

(** *** Loading *)

(** [std::map<std::string, Plug *>], kept in the order of its keys;
    [m[key] = value]. *)
Fixpoint assign (key : string) (value : PlugId) (m : list (string * PlugId))
    : list (string * PlugId) :=
  match m with
  | [] => [(key, value)]
  | (k, v) :: m' =>
      match String.compare key k with
      | Lt => (key, value) :: m
      | Eq => (key, value) :: m'
      | Gt => (k, v) :: assign key value m'
      end
  end.

(** The script of a file at work on the node; [newChildren] grows with
    every child the two [childAddedSignal] slots see. *)
Definition addToUserPlug (plug : Plug) (cs : list GraphComponent) : list GraphComponent :=
  match cs with
  | PlugComponent user :: cs' =>
      PlugComponent (withChildren (children user ++ [plug]) user) :: cs'
  | _ => cs
  end.

Definition runScript (loaded : Loaded) : M (list GraphComponent) :=
  newChildren ← forEachWith (additions loaded) [] (λ newChildren addition,
    match addition with
    | AddChild child =>
        modify (withNodeChildren (λ cs, cs ++ [child])) ;;
        mret (newChildren ++ [child])
    | AddUserPlug plug =>
        modify (withNodeChildren (addToUserPlug plug)) ;;
        mret (newChildren ++ [PlugComponent plug])
    end);
  modify (withInputs (λ table,
    foldl (λ t edge, <[edge.1 := edge.2]> t) table (connections loaded))) ;;
  modify (withValues (λ table,
    foldl (λ t entry, <[entry.1 := entry.2]> t) table (plugValues loaded))) ;;
  modify (withMetadata (λ table,
    foldl (λ t entry, <[entry.1 := entry.2]> t) table (registrations loaded))) ;;
  mret newChildren.

Definition quoted (s : string) : string :=
  (String "034" EmptyString +:+ s +:+ String "034" EmptyString)%string.

(** The flag of [loadInternal] for references saved before version
    0.9.0.0. *)
Definition versionPriorTo09 (milestoneVersion majorVersion : Z) : bool :=
  (milestoneVersion =? 0)%Z && (majorVersion <? 9)%Z.

(** The body of the [try] block of [loadInternal]. *)
Definition transfer (oldPlug newPlug : Plug) (versionPriorTo09 : bool) : M unit :=
  (if bool_decide (direction newPlug = In) && bool_decide (direction oldPlug = In)
   then copyInputsAndValues oldPlug newPlug (negb versionPriorTo09)
   else mret ()) ;;
  transferOutputs oldPlug newPlug ;;
  MetadataAlgo_copy oldPlug newPlug.

(** One round of the loop of [loadInternal] over [previousPlugs]. *)
Definition reconcile (fileName : string) (versionPriorTo09 : bool)
    (entry : string * PlugId) : M unit :=
  oldPlug ← gets (findPlug entry.2);
  newPlug ← gets (descendant entry.1);
  match newPlug, oldPlug with
  | Some newPlug, Some oldPlug =>
      tryCatch (transfer oldPlug newPlug versionPriorTo09)
        (λ e,
           nodeName ← gets name;
           emit (Warning ("Loading " +:+ quoted fileName +:+ " onto " +:+ quoted nodeName)
                   (what e)))
  | _, _ => mret ()
  end ;;
  removeChildPlug entry.2.

(** [Reference::loadInternal]. *)
Definition loadInternal (fileName : string) : M unit :=
  plugs ← gets plugChildren;
  previousPlugs ← forEachWith plugs [] (λ previousPlugs plug,
    isReference ← gets (isReferencePlug plug ThisNode);
    if (isReference : bool) then
      let previousPlugs := assign (getName plug) (plugId plug) previousPlugs in
      setName plug ("__tmp__" +:+ getName plug) ;;
      mret previousPlugs
    else mret previousPlugs);
  user ← gets userPlug;
  previousPlugs ←
    match user with
    | Some user =>
        forEachWith (children user) previousPlugs (λ previousPlugs plug,
          isReference ← gets (isReferencePlug plug (ParentPlug user ThisNode));
          if (isReference : bool) then
            let previousPlugs :=
              assign (getName user +:+ "." +:+ getName plug) (plugId plug)
                previousPlugs in
            setName plug ("__tmp__" +:+ getName plug) ;;
            mret previousPlugs
          else mret previousPlugs)
    | None => mret previousPlugs
    end;
  nodes ← gets nodeComponents;
  forEach (reverse nodes) removeChildNode ;;
  '(newChildren, errors) ←
    (if bool_decide (fileName ≠ EmptyString) then
       newChildren ← runScript (executeFile fileName);
       mret (newChildren, hadErrors (executeFile fileName))
     else mret ([], false));
  forEach newChildren (λ member,
    match member with
    | PlugComponent plug =>
        setFlagsDynamic plug false ;;
        convertPersistentMetadata plug ;;
        forEach (descendants plug) (λ it,
          setFlagsDynamic it false ;;
          convertPersistentMetadata it)
    | NodeComponent _ => mret ()
    end) ;;
  milestone ← gets (nodeIntValue "serialiser:milestoneVersion");
  major ← gets (nodeIntValue "serialiser:majorVersion");
  let milestoneVersion := default 0%Z milestone in
  let majorVersion := default 0%Z major in
  let versionPriorTo09 := versionPriorTo09 milestoneVersion majorVersion in
  (forEach previousPlugs (reconcile fileName versionPriorTo09) ;;
  modify (withFileName fileName) ;;
  g ← gets (λ g, g);
  emit (ReferenceLoaded g) ;;
  if (errors : bool) then
    throw (IECoreException ("Error loading reference " +:+ quoted fileName))
  else mret ()).

(** *** The parts of [loadInternal]

    The three definitions that follow are the statements of
    [loadInternal] once more, cut where it reads the versions and where
    its loop over [previousPlugs] ends; [loadInternal_stages] proves that
    [loadInternal] is the three of them in a row. *)

(** From the first statement of [loadInternal] to the post processing of
    the new children: the old plugs renamed, the child nodes removed, the
    file executed, the new plugs made non-dynamic.  The two local
    variables that the rest of the function reads are returned. *)
Definition loadContent (fileName : string) : M (list (string * PlugId) * bool) :=
  plugs ← gets plugChildren;
  previousPlugs ← forEachWith plugs [] (λ previousPlugs plug,
    isReference ← gets (isReferencePlug plug ThisNode);
    if (isReference : bool) then
      let previousPlugs := assign (getName plug) (plugId plug) previousPlugs in
      setName plug ("__tmp__" +:+ getName plug) ;;
      mret previousPlugs
    else mret previousPlugs);
  user ← gets userPlug;
  previousPlugs ←
    match user with
    | Some user =>
        forEachWith (children user) previousPlugs (λ previousPlugs plug,
          isReference ← gets (isReferencePlug plug (ParentPlug user ThisNode));
          if (isReference : bool) then
            let previousPlugs :=
              assign (getName user +:+ "." +:+ getName plug) (plugId plug)
                previousPlugs in
            setName plug ("__tmp__" +:+ getName plug) ;;
            mret previousPlugs
          else mret previousPlugs)
    | None => mret previousPlugs
    end;
  nodes ← gets nodeComponents;
  forEach (reverse nodes) removeChildNode ;;
  '(newChildren, errors) ←
    (if bool_decide (fileName ≠ EmptyString) then
       newChildren ← runScript (executeFile fileName);
       mret (newChildren, hadErrors (executeFile fileName))
     else mret ([], false));
  forEach newChildren (λ member,
    match member with
    | PlugComponent plug =>
        setFlagsDynamic plug false ;;
        convertPersistentMetadata plug ;;
        forEach (descendants plug) (λ it,
          setFlagsDynamic it false ;;
          convertPersistentMetadata it)
    | NodeComponent _ => mret ()
    end) ;;
  mret (previousPlugs, errors).

(** The local variable [versionPriorTo09] of [loadInternal], from the two
    values it reads on the node; a value that is not registered, or is no
    [IntData], leaves the 0 the variable was initialised with. *)
Definition legacyFlag (g : Graph) : bool :=
  versionPriorTo09
    (default 0%Z (nodeIntValue "serialiser:milestoneVersion" g))
    (default 0%Z (nodeIntValue "serialiser:majorVersion" g)).

(** The statements of [loadInternal] under its comment [Finish up]. *)
Definition finishLoad (fileName : string) (errors : bool) : M unit :=
  modify (withFileName fileName) ;;
  g ← gets (λ g, g);
  emit (ReferenceLoaded g) ;;
  if errors then
    throw (IECoreException ("Error loading reference " +:+ quoted fileName))
  else mret ().

(** [Reference::load].  [Action::enact] runs the first of its two
    functions at once; the second is kept for undo. *)
Definition load (fileName : string) : M unit :=
  script ← gets scriptNode;
  if negb script then
    throw (IECoreException "Reference::load called without ScriptNode")
  else loadInternal fileName.

(** [Reference::fileName]. *)
Definition fileName (g : Graph) : string := m_fileName g.

End Reference.

(** *** An example script *)

(** A reference node [ref] that has loaded [good.grf] before: its user
    plug with a plug added by hand, a compound input [size] whose [x]
    is driven from outside and whose [y] holds a value, an output [out]
    that feeds a plug outside, a plug for internal use and a child
    node. *)
Definition leaf (id : PlugId) (name : string) (dir : Direction) (def : Data) : Plug :=
  mkPlug id name dir false (Some def) [].

Definition exampleGraph : Graph := {|
  scriptNode := true;
  name := "ref";
  nodeChildren := [
    PlugComponent (mkPlug 1 "user" In false None
                     [mkPlug 2 "note" In true (Some (StringData "")) []]);
    PlugComponent (mkPlug 3 "size" In false None
                     [leaf 4 "x" In (IntData 0); leaf 5 "y" In (IntData 0)]);
    PlugComponent (leaf 6 "out" Out (IntData 0));
    PlugComponent (leaf 7 "__uiPosition" In (IntData 0));
    NodeComponent (mkNode "inner" [leaf 8 "in" In (IntData 0)])
  ];
  elsewhere := [leaf 10 "driver" Out (IntData 0); leaf 11 "consumer" In (IntData 0)];
  inputs := {[ 4 := 10; 11 := 6; 8 := 4 ]};
  values := {[ 5 := IntData 7 ]};
  metadata := {[ (Some 3, "label") := (StringData "Size", true) ]};
  m_fileName := "good.grf"
|}.

Definition exampleWorld : World := mkWorld exampleGraph [].

(** What the two files hold.  [good.grf] brings [size], [out] and the
    child node again; [bad.grf] brings [size] with a string [y] and
    stops with an error. *)
Definition goodScript : Loaded := {|
  additions := [
    AddChild (PlugComponent (mkPlug 23 "size" In true None
                [mkPlug 24 "x" In true (Some (IntData 0)) [];
                 mkPlug 25 "y" In true (Some (IntData 0)) []]));
    AddChild (PlugComponent (mkPlug 26 "out" Out true (Some (IntData 0)) []));
    AddChild (NodeComponent (mkNode "inner" [leaf 28 "in" In (IntData 0)]))
  ];
  connections := [(28, 24)];
  plugValues := [];
  registrations := [
    ((None, "serialiser:milestoneVersion"), (IntData 0, false));
    ((None, "serialiser:majorVersion"), (IntData 53, false));
    ((Some 23, "description"), (StringData "Size of the box", true))
  ];
  hadErrors := false
|}.

Definition badScript : Loaded := {|
  additions := [
    AddChild (PlugComponent (mkPlug 33 "size" In true None
                [mkPlug 34 "x" In true (Some (IntData 0)) [];
                 mkPlug 35 "y" In true (Some (StringData "")) []]))
  ];
  connections := [];
  plugValues := [];
  registrations := [];
  hadErrors := true
|}.

Definition exampleCollaborators : Collaborators := {|
  acceptsInput plug input := bool_decide (length (children plug) = length (children input));
  executeFile fileName :=
    if String.eqb fileName "good.grf" then goodScript
    else if String.eqb fileName "bad.grf" then badScript
    else mkLoaded [] [] [] [] true
|}.





End Reference.
(** ** Properties of the tokenizer *)

Section TokenizerProperties.

Variable delim : ascii.


Lemma skipDropped_segments s :
List.filter nonEmpty (splitOn delim (skipDropped delim s)) = List.filter nonEmpty (splitOn delim s).
Proof.
induction s as [|c s IH]; simpl; [done|].
unfold is_dropped. destruct (Ascii.eqb c delim) eqn:Hc; simpl.
- exact IH.
- by rewrite Hc.
Qed.

Lemma skipDropped_length s : (String.length (skipDropped delim s) ≤ String.length s)%nat.
Proof.
induction s as [|c s IH]; simpl; [lia|].
destruct (is_dropped delim c); simpl; lia.
Qed.

Lemma skipDropped_head s c s' : skipDropped delim s = String c s' → is_dropped delim c = false.
Proof.
induction s as [|d s IH]; simpl; [done|].
destruct (is_dropped delim d) eqn:Hd; [done|].
intros [= -> _]. done.
Qed.

Lemma splitOn_cons s : ∃ seg segs, splitOn delim s = seg :: segs.
Proof.
destruct s as [|c s]; simpl; [by eexists _, _|].
destruct (Ascii.eqb c delim); [by eexists _, _|].
destruct (splitOn delim s); by eexists _, _.
Qed.

(** One step of the tokenizer against the segments of the specification. *)
Lemma takeToken_segments s tok rest :
takeToken delim s = (tok, rest) →
(String.length rest ≤ String.length s)%nat ∧
(String.length s = String.length tok + String.length rest)%nat ∧
∃ segs, splitOn delim s = tok :: segs ∧
        List.filter nonEmpty segs = List.filter nonEmpty (splitOn delim rest).
Proof.
revert tok rest. induction s as [|c s IH]; simpl; intros tok rest.
- intros [= <- <-]. repeat split; try done. by exists [].
- unfold is_dropped. destruct (Ascii.eqb c delim) eqn:Hc.
  + intros [= <- <-]. simpl. repeat split; [lia..|].
    exists (splitOn delim s). split; [done|]. by rewrite Hc.
  + destruct (takeToken delim s) as [tok' rest'] eqn:Htok. intros [= <- <-].
    destruct (IH _ _ eq_refl) as (Hlen & Hsum & segs & Hsplit & Hfilter).
    simpl. repeat split; [lia..|].
    exists segs. by rewrite Hsplit.
Qed.

Lemma tokensFrom_segments fuel s :
(String.length s ≤ fuel)%nat →
tokensFrom delim fuel s = segments delim s.
Proof.
revert s. induction fuel as [|fuel IH]; intros s Hfuel.
- destruct s; [done|simpl in Hfuel; lia].
- unfold segments. rewrite <- skipDropped_segments. simpl.
  pose proof (skipDropped_length s) as Hskip.
  destruct (skipDropped delim s) as [|c start] eqn:Hstart; [done|].
  pose proof (skipDropped_head _ _ _ Hstart) as Hc.
  destruct (takeToken delim (String c start)) as [tok rest] eqn:Htok.
  destruct (takeToken_segments _ _ _ Htok) as (_ & Hsum & segs & Hsplit & Hfilter).
  rewrite Hsplit. simpl in Htok. rewrite Hc in Htok.
  destruct (takeToken delim start) as [tok' rest'] eqn:Htok'.
  injection Htok as <- <-. rewrite Hc. simpl. rewrite Hfilter. f_equal.
  apply IH. simpl in Hsum, Hskip. lia.
Qed.

(** The tokenizer of the code yields the segments the specification
  describes. *)
Lemma Tokenizer_segments root : Tokenizer delim root = segments delim root.
Proof. apply tokensFrom_segments. done. Qed.

Lemma segments_nonEmpty root seg : seg ∈ segments delim root → seg ≠ EmptyString.
Proof.
unfold segments. rewrite list_elem_of_In, filter_In.
intros [_ H] ->. done.
Qed.

End TokenizerProperties.

(** ** Properties of the substring constructor *)

Lemma dropChars_split pos s :
  (pos ≤ size s)%nat →
  ∃ pre, size pre = pos ∧ s = (pre +:+ dropChars pos s)%string.
Proof.
  revert s. induction pos as [|pos IH]; intros s Hpos.
  - by exists EmptyString.
  - unfold size in *. destruct s as [|c s]; simpl in Hpos; [lia|].
    destruct (IH s) as (pre & Hpre & Hs); [lia|].
    exists (String c pre). split; [simpl; by rewrite Hpre|].
    change (String c s = String c (pre +:+ dropChars pos s)%string). by rewrite <- Hs.
Qed.

Lemma substringFrom_Ok str pos out :
  substringFrom str pos = Ok out ↔ (pos ≤ size str)%nat ∧ out = dropChars pos str.
Proof.
  unfold substringFrom. destruct (Nat.leb_spec pos (size str)).
  - split; [intros [= <-]; done|intros [_ ->]; done].
  - split; [done|lia].
Qed.

Lemma substringFrom_Throw str pos e :
  substringFrom str pos = Throw e ↔ (size str < pos)%nat ∧ e = OutOfRange.
Proof.
  unfold substringFrom. destruct (Nat.leb_spec pos (size str)).
  - split; [done|lia].
  - split; [intros [= <-]; done|intros [_ ->]; done].
Qed.

(** ** Properties of SubTree *)

Module SubTreeProofs.

Import SubTree.

(** *** Properties of the globals rewrite *)

Section Globals.

Context {Data : Type}.
Implicit Types (entries : list (string * Data)) (acc out : gmap string Data).

(** The loop runs to its end exactly when no key is shorter than the
    root string. *)
Lemma rewriteForwardDeclarations_isOk root entries acc :
  isOk (rewriteForwardDeclarations root entries acc) = true ↔
  Forall (λ entry, (size root ≤ size entry.1)%nat) entries.
Proof.
  revert acc. induction entries as [|[k v] entries IH]; intros acc; simpl.
  - split; [constructor|done].
  - unfold substringFrom. destruct (Nat.leb_spec (size root) (size k)).
    + rewrite IH. split; [by constructor|by inversion 1].
    + simpl. split; [done|]. inversion 1; simpl in *; lia.
Qed.

(** The only exception it raises is [std::out_of_range]. *)
Lemma rewriteForwardDeclarations_Throw root entries acc e :
  rewriteForwardDeclarations root entries acc = Throw e → e = OutOfRange.
Proof.
  revert acc. induction entries as [|[k v] entries IH]; intros acc; simpl; [done|].
  destruct (substringFrom k (size root)) eqn:Hsub; [by apply IH|].
  intros [= <-]. by apply substringFrom_Throw in Hsub as [_ ->].
Qed.

(** Every entry of the result was there before or comes from an input
    entry whose key has lost its first [root.size()] characters. *)
Lemma rewriteForwardDeclarations_lookup root entries acc out k' v :
  rewriteForwardDeclarations root entries acc = Ok out →
  out !! k' = Some v →
  acc !! k' = Some v ∨
  ∃ k, (k, v) ∈ entries ∧ k' = dropChars (size root) k.
Proof.
  revert acc. induction entries as [|[k w] entries IH]; intros acc; simpl.
  - intros [= <-]. by left.
  - destruct (substringFrom k (size root)) as [outputPath|] eqn:Hsub; [|done].
    apply substringFrom_Ok in Hsub as [_ ->].
    intros Hrun Hout. destruct (IH _ Hrun Hout) as [Hacc|(k0 & Hin & ->)].
    + destruct (decide (dropChars (size root) k = k')) as [<-|Hne].
      * rewrite lookup_insert_eq in Hacc. injection Hacc as <-.
        right. exists k. split; [left|done].
      * rewrite lookup_insert_ne in Hacc by done. by left.
    + right. exists k0. split; [by right|done].
Qed.

(** Every input entry leaves an entry under its shortened key, and
    nothing that was there is lost. *)
Lemma rewriteForwardDeclarations_keys root entries acc out :
  rewriteForwardDeclarations root entries acc = Ok out →
  (∀ k', is_Some (acc !! k') → is_Some (out !! k')) ∧
  (∀ k v, (k, v) ∈ entries → is_Some (out !! dropChars (size root) k)).
Proof.
  revert acc. induction entries as [|[k w] entries IH]; intros acc; simpl.
  - intros [= <-]. split; [done|]. intros k v Hin. by apply elem_of_nil in Hin.
  - destruct (substringFrom k (size root)) as [outputPath|] eqn:Hsub; [|done].
    apply substringFrom_Ok in Hsub as [_ ->].
    intros Hrun. destruct (IH _ Hrun) as [Hacc Hentries]. split.
    + intros k' Hk'. apply Hacc. rewrite lookup_insert. by case_decide.
    + intros k0 v [[= -> ->]|Hin]%elem_of_cons; [|by eapply Hentries].
      apply Hacc. by rewrite lookup_insert_eq.
Qed.

(** Only the length of the root string enters the loop. *)
Lemma rewriteForwardDeclarations_size root root' entries acc :
  size root' = size root →
  rewriteForwardDeclarations root' entries acc = rewriteForwardDeclarations root entries acc.
Proof.
  intros Hsize. revert acc. induction entries as [|[k v] entries IH]; intros acc; simpl; [done|].
  rewrite Hsize. destruct (substringFrom k (size root)); [apply IH|done].
Qed.

End Globals.

(** *** Properties of the node *)

Section SceneProperties.

Context {Box3f M44f Payload Data MurmurHash : Type}.
Context (SceneProcessor_hash :
           OutputPlug → Context → MurmurHash → MurmurHash)
        (append : MurmurHash → MurmurHash → MurmurHash)
        (stringHash : string → MurmurHash)
        (identityTransform : M44f) (nullObject : @Object Payload Data).

Implicit Types (self : @SubTree Box3f M44f Payload Data MurmurHash)
               (context : Context) (h : MurmurHash).

Lemma sourcePath_segments self path :
  sourcePath self path = rootSegments (rootPlug self) ++ path.
Proof. unfold sourcePath. unfold rootSegments. by rewrite Tokenizer_segments. Qed.

(** C1. Re-rooting: at every output path, the bound, transform,
    attributes, object and child names a SubTree computes are those of the
    input scene at the source path: the segments of the root string (cut
    at every ['/'], empty segments dropped) followed by the output
    path. *)
Theorem C1_rerooting self (path : ScenePath) :
  let source := rootSegments (rootPlug self) ++ path in
  computeBound self path = bound (inPlug self) source ∧
  computeTransform self path = transform (inPlug self) source ∧
  computeAttributes self path = attributes (inPlug self) source ∧
  computeObject self path = object (inPlug self) source ∧
  computeChildNames self path = childNames (inPlug self) source.
Proof.
  unfold computeBound, computeTransform, computeAttributes, computeObject,
    computeChildNames.
  rewrite sourcePath_segments. done.
Qed.

(** Below the root the three guarded facets forward the input's hash at
    the source path. *)
Lemma hash_below_root self context h :
  scenePath context ≠ [] →
  let source := sourcePath self (scenePath context) in
  hash SceneProcessor_hash append stringHash self transformPlug context h
    = transformHash (inPlug self) source ∧
  hash SceneProcessor_hash append stringHash self attributesPlug context h
    = attributesHash (inPlug self) source ∧
  hash SceneProcessor_hash append stringHash self objectPlug context h
    = objectHash (inPlug self) source.
Proof.
  intros Hpath. unfold hash.
  destruct (scenePath context) as [|name path]; [done|]. done.
Qed.

(** C2. Root of the subtree: at the empty output path the transform,
    attributes and object facets take their default values (identity,
    empty, null) whatever the input holds at the root location, and their
    hash is what the base class left in the digest: it is the same for
    every input scene, so the input's hash at the root location does not
    enter it. *)
Theorem C2_root_facets_default self context h :
  scenePath context = [] →
  (transformValue identityTransform self context = identityTransform ∧
   attributesValue self context = ∅ ∧
   objectValue nullObject self context = nullObject) ∧
  (∀ output, output ∈ [transformPlug; attributesPlug; objectPlug] →
     hash SceneProcessor_hash append stringHash self output context h
       = SceneProcessor_hash output context h ∧
     ∀ input : @ScenePlug Box3f M44f Payload Data MurmurHash,
       hash SceneProcessor_hash append stringHash
         {| inPlug := input; rootPlug := rootPlug self |} output context h
       = hash SceneProcessor_hash append stringHash self output context h).
Proof.
  intros Hroot. split.
  - unfold transformValue, attributesValue, objectValue. by rewrite Hroot.
  - intros output Hout. unfold hash. rewrite Hroot. simpl.
    repeat (apply elem_of_cons in Hout as [->|Hout]; [done|]).
    by apply elem_of_nil in Hout.
Qed.

(** C10. The globals rewrite goes by length alone.  With forward
    declarations in the input globals, [computeGlobals] returns exactly
    when no key is shorter than the raw root string, and raises
    [std::out_of_range] otherwise; the keys of the result are the input
    keys without their first [root.size()] characters, whatever those
    characters were (another root string of the same length gives the same
    result); and a key shorter than the root string does occur for some
    input. *)
Theorem C10_globals_keys_cut_by_length self (fwd : gmap string Data) :
  globals (inPlug self) !! "gaffer:forwardDeclarations" = Some (CompoundData fwd) →
  let n := size (rootPlug self) in
  (isOk (computeGlobals self) = true ↔ ∀ k, is_Some (fwd !! k) → (n ≤ size k)%nat) ∧
  ((∃ k, is_Some (fwd !! k) ∧ (size k < n)%nat) →
     computeGlobals self = Throw OutOfRange) ∧
  (∀ result, computeGlobals self = Ok result →
     ∃ out,
       result = <["gaffer:forwardDeclarations" := CompoundData out]> (globals (inPlug self)) ∧
       (∀ k' v, out !! k' = Some v →
          ∃ k pre, fwd !! k = Some v ∧ size pre = n ∧ k = (pre +:+ k')%string) ∧
       (∀ k v, fwd !! k = Some v → is_Some (out !! dropChars n k))) ∧
  (∀ root', size root' = n →
     computeGlobals {| inPlug := inPlug self; rootPlug := root' |} = computeGlobals self) ∧
  (∃ failing : @SubTree Z Z Z Z Z, computeGlobals failing = Throw OutOfRange).
Proof.
  intros Hfwd n.
  assert (Hall : isOk (computeGlobals self) = true ↔
                 ∀ k, is_Some (fwd !! k) → (n ≤ size k)%nat).
  { unfold computeGlobals. rewrite Hfwd.
    pose proof (rewriteForwardDeclarations_isOk (rootPlug self) (map_to_list fwd) ∅) as Hok.
    destruct (rewriteForwardDeclarations _ _ _) as [out|e] eqn:Hrun; simpl in *.
    - split; [|done]. intros _ k [v Hk].
      pose proof (proj1 Hok eq_refl) as Hforall. rewrite Forall_forall in Hforall.
      apply (Hforall (k, v)). by apply elem_of_map_to_list.
    - split; [done|]. intros Hlen. apply Hok. apply Forall_forall.
      intros [k v] Hin%elem_of_map_to_list. apply Hlen. by exists v. }
  split; [exact Hall|]. split; [|split; [|split]].
  - intros (k & Hk & Hshort).
    destruct (computeGlobals self) as [result|e] eqn:Hrun.
    + assert (n ≤ size k)%nat by (by apply Hall). lia.
    + unfold computeGlobals in Hrun. rewrite Hfwd in Hrun.
      destruct (rewriteForwardDeclarations _ _ _) as [out|e'] eqn:Hloop; [done|].
      injection Hrun as <-. f_equal. by eapply rewriteForwardDeclarations_Throw.
  - intros result. unfold computeGlobals. rewrite Hfwd.
    destruct (rewriteForwardDeclarations _ _ _) as [out|e'] eqn:Hloop; [|done].
    intros [= <-]. exists out. split; [done|]. split.
    + intros k' v Hout.
      destruct (rewriteForwardDeclarations_lookup _ _ _ _ _ _ Hloop Hout)
        as [Hempty|(k & Hin & ->)]; [by rewrite lookup_empty in Hempty|].
      apply elem_of_map_to_list in Hin.
      assert (n ≤ size k)%nat as Hlen.
      { pose proof (rewriteForwardDeclarations_isOk (rootPlug self) (map_to_list fwd) ∅) as Hok.
        rewrite Hloop in Hok. pose proof (proj1 Hok eq_refl) as Hforall.
        rewrite Forall_forall in Hforall.
        apply (Hforall (k, v)). by apply elem_of_map_to_list. }
      destruct (dropChars_split n k Hlen) as (pre & Hpre & Hk).
      by exists k, pre.
    + intros k v Hk.
      eapply (proj2 (rewriteForwardDeclarations_keys _ _ _ _ Hloop)).
      by apply elem_of_map_to_list.
  - intros root' Hsize. unfold computeGlobals. simpl. rewrite Hfwd.
    by rewrite (rewriteForwardDeclarations_size (rootPlug self) root').
  - exists (exampleSubTree "/group1" {[ "/cam" := 1%Z ]}). by vm_compute.
Qed.

End SceneProperties.

(** C3. The prefix is not checked.  With root ["/group1"], a forward
    declaration of ["/group2/camera"] (a location outside the subtree, whose
    key does not start with the root string) comes out under the key
    ["/camera"]; a forward declaration of ["/cam"], shorter than the root
    string, makes [computeGlobals] raise instead of returning; and with
    the root written ["group1"], which names the same location to
    [sourcePath], the key ["/group1/mesh1"] comes out as ["1/mesh1"]. *)
Theorem C3_globals_prefix_unchecked :
  starts_with "/group2/camera" "/group1" = false ∧
  computeGlobals (exampleSubTree "/group1" {[ "/group2/camera" := 1%Z ]})
    = Ok (exampleGlobals {[ "/camera" := 1%Z ]}) ∧
  computeGlobals (exampleSubTree "/group1" {[ "/cam" := 1%Z ]}) = Throw OutOfRange ∧
  sourcePath (exampleSubTree "group1" ∅) ["mesh1"]
    = sourcePath (exampleSubTree "/group1" ∅) ["mesh1"] ∧
  computeGlobals (exampleSubTree "group1" {[ "/group1/mesh1" := 1%Z ]})
    = Ok (exampleGlobals {[ "1/mesh1" := 1%Z ]}).
Proof. repeat split; by vm_compute. Qed.

(** At the root of the example subtree the transform is the identity (here
    0) although the input holds 101 at [/group1], and the digest is the
    one it was given. *)
Lemma C2_witness :
  let self := exampleSubTree "/group1" ∅ in
  let context := {| scenePath := [] |} in
  scenePath context = [] ∧
  transform (inPlug self) ["group1"] = 101%Z ∧
  transformValue 0%Z self context = 0%Z ∧
  hash (λ _ _ h, h) Z.add (λ s, Z.of_nat (String.length s)) self transformPlug context 5%Z
    = 5%Z.
Proof.
  intros self context. split; [reflexivity|]. split; [reflexivity|].
  destruct (C2_root_facets_default (λ _ _ h, h) Z.add (λ s, Z.of_nat (String.length s))
              0%Z (OtherObject 0%Z) self context 5%Z eq_refl) as [[Hvalue _] Hhash].
  split; [exact Hvalue|].
  apply (Hhash transformPlug). left.
Defined.

(** The example subtree with a forward declaration shorter than its
    root. *)
Lemma C10_witness :
  let self := exampleSubTree "/group1" {[ "/cam" := 1%Z ]} in
  globals (inPlug self) !! "gaffer:forwardDeclarations"
    = Some (CompoundData {[ "/cam" := 1%Z ]}) ∧
  computeGlobals self = Throw OutOfRange.
Proof.
  intros self. split; [by vm_compute|].
  assert (globals (inPlug self) !! "gaffer:forwardDeclarations"
            = Some (CompoundData {[ "/cam" := 1%Z ]})) as Hglobals by (by vm_compute).
  destruct (C10_globals_keys_cut_by_length self {[ "/cam" := 1%Z ]} Hglobals)
    as (_ & Hthrow & _).
  apply Hthrow. exists "/cam". split.
  - exists 1%Z. vm_compute. reflexivity.
  - unfold size. simpl. lia.
Defined.

End SubTreeProofs.

(** ** Properties of Reference *)

Module ReferenceProofs.

Import Reference.

(** *** Induction over plugs *)

Lemma Plug_ind' (P : Plug → Prop) :
  (∀ id name dir dyn def cs, Forall P cs → P (mkPlug id name dir dyn def cs)) →
  ∀ plug, P plug.
Proof.
  intros Hstep. fix IH 1. intros [id name dir dyn def cs].
  apply Hstep. induction cs as [|c cs IHcs]; constructor; [apply IH|exact IHcs].
Qed.

Lemma flatten_unfold plug : flatten plug = plug :: flattenAll (children plug).
Proof.
  destruct plug as [id name dir dyn def cs]. reflexivity.
Qed.

Lemma elem_of_flattenAll plug cs :
  plug ∈ flattenAll cs ↔ ∃ c, c ∈ cs ∧ plug ∈ flatten c.
Proof.
  unfold flattenAll. rewrite list_elem_of_In, in_flat_map.
  split; intros (c & Hc & Hplug); exists c; by rewrite ?list_elem_of_In in *.
Qed.

Lemma elem_of_flatten_child plug child parent :
  child ∈ children parent → plug ∈ flatten child → plug ∈ flatten parent.
Proof.
  intros Hchild Hplug. rewrite flatten_unfold. right.
  apply elem_of_flattenAll. by exists child.
Qed.

Lemma elem_of_flatten_self plug : plug ∈ flatten plug.
Proof. rewrite flatten_unfold. left. Qed.

(** *** Statements that keep a relation between the worlds *)

Section Respects.

Context (R : relation World) `{!PreOrder R}.

(** Whatever the statement returns or throws, the world it leaves is
    related to the one it found. *)
Definition Respects {A} (m : M A) : Prop := ∀ w, R w (m w).2.

Lemma respects_ret {A} (a : A) : Respects (mret a).
Proof. intros w. simpl. reflexivity. Qed.

Lemma respects_throw {A} e : Respects (throw (A:=A) e).
Proof. intros w. simpl. reflexivity. Qed.

Lemma respects_gets {A} (f : Graph → A) : Respects (gets f).
Proof. intros w. simpl. reflexivity. Qed.

Lemma respects_bind {A B} (m : M A) (k : A → M B) :
  Respects m → (∀ a, Respects (k a)) → Respects (m ≫= k).
Proof.
  intros Hm Hk w. unfold mbind, M_bind. specialize (Hm w).
  destruct (m w) as [[a|e] w']; simpl in *; [|done].
  etrans; [exact Hm|apply Hk].
Qed.

Lemma respects_forEach {A} (l : list A) (body : A → M unit) :
  (∀ x, x ∈ l → Respects (body x)) → Respects (forEach l body).
Proof.
  induction l as [|x l IH]; intros Hbody; simpl.
  - apply respects_ret.
  - apply respects_bind; [apply Hbody; left|].
    intros _. apply IH. intros y Hy. apply Hbody. by right.
Qed.

Lemma respects_forEachWith {A S} (l : list A) (s : S) (body : S → A → M S) :
  (∀ s x, x ∈ l → Respects (body s x)) → Respects (forEachWith l s body).
Proof.
  revert s. induction l as [|x l IH]; intros s Hbody; simpl.
  - apply respects_ret.
  - apply respects_bind; [apply Hbody; left|].
    intros s'. apply IH. intros s'' y Hy. apply Hbody. by right.
Qed.

Lemma respects_tryCatch (body : M unit) handler :
  Respects body → (∀ e, Respects (handler e)) → Respects (tryCatch body handler).
Proof.
  intros Hbody Hhandler w. unfold tryCatch. specialize (Hbody w).
  destruct (body w) as [[a|e] w']; simpl in *; [done|].
  etrans; [exact Hbody|apply Hhandler].
Qed.

End Respects.

(** *** The recursive transfers, unfolded *)

Section Transfers.

Context `{Collaborators}.

(** The leaf case of [copyInputsAndValues]. *)
Definition copyLeaf (srcPlug dstPlug : Plug) (ignoreDefaultValues : bool) : M unit :=
  setInput dstPlug None ;;
  if isValuePlug srcPlug then
    srcDefault ← gets (isSetToDefault srcPlug);
    if negb ignoreDefaultValues || negb srcDefault then
      if isValuePlug dstPlug then setFrom dstPlug srcPlug else mret ()
    else mret ()
  else mret ().

(** Its loop over the children of the destination. *)
Definition copyChildren (srcPlug : Plug) (ignoreDefaultValues : bool)
    (cs : list Plug) : M unit :=
  forEach cs (λ child,
    match getChild srcPlug (getName child) with
    | Some srcChildPlug => copyInputsAndValues srcChildPlug child ignoreDefaultValues
    | None => mret ()
    end).

Lemma copyInputsAndValues_unfold srcPlug dstPlug ignoreDefaultValues w :
  copyInputsAndValues srcPlug dstPlug ignoreDefaultValues w =
  match getInput srcPlug (graph w) with
  | Some input => setInput dstPlug (Some input) w
  | None =>
      match children dstPlug with
      | [] => copyLeaf srcPlug dstPlug ignoreDefaultValues w
      | cs => copyChildren srcPlug ignoreDefaultValues cs w
      end
  end.
Proof.
  destruct dstPlug as [id name dir dyn def cs].
  destruct cs as [|c cs]; simpl; unfold mbind, M_bind, gets; simpl;
    destruct (getInput srcPlug (graph w)) as [input|]; try reflexivity.
  unfold copyChildren. simpl. unfold mbind, M_bind.
  destruct (match getChild srcPlug (getName c) with
            | Some s => copyInputsAndValues s c ignoreDefaultValues
            | None => mret ()
            end w) as [[[]|e] w']; [|done].
  clear w. revert w'. induction cs as [|c' cs IH]; intros w; simpl; [done|].
  unfold mbind, M_bind.
  destruct (match getChild srcPlug (getName c') with
            | Some s => copyInputsAndValues s c' ignoreDefaultValues
            | None => mret ()
            end w) as [[[]|e] w']; [|done].
  apply IH.
Qed.

(** The loop of [transferOutputs] over the children of the source. *)
Definition transferChildren (dstPlug : Plug) (cs : list Plug) : M unit :=
  forEach cs (λ child,
    match getChild dstPlug (getName child) with
    | Some dstChildPlug => transferOutputs child dstChildPlug
    | None => mret ()
    end).

Lemma transferOutputs_unfold srcPlug dstPlug w :
  transferOutputs srcPlug dstPlug w =
  (forEach (outputs srcPlug (graph w))
     (λ outputPlug, setInput outputPlug (Some dstPlug)) ;;
   transferChildren dstPlug (children srcPlug)) w.
Proof.
  destruct srcPlug as [id name dir dyn def cs]. simpl.
  unfold mbind, M_bind, gets; simpl.
  destruct (forEach _ _ w) as [[[]|e] w']; [|done].
  clear w. revert w'. unfold transferChildren.
  induction cs as [|c cs IH]; intros w; simpl; [done|].
  unfold mbind, M_bind.
  destruct (match getChild dstPlug (getName c) with
            | Some d => transferOutputs c d
            | None => mret ()
            end w) as [[[]|e] w']; [|done].
  apply IH.
Qed.

Section RespectsTransfers.

Context (R : relation World) `{!PreOrder R}.

Lemma respects_ext {A} (m m' : M A) :
  (∀ w, m w = m' w) → Respects R m' → Respects R m.
Proof. intros Heq Hm w. rewrite Heq. apply Hm. Qed.

Lemma copyInputsAndValues_respects srcPlug dstPlug ignoreDefaultValues :
  (∀ plug input, plug ∈ flatten dstPlug → Respects R (setInput plug input)) →
  (∀ plug other, plug ∈ flatten dstPlug → Respects R (setFrom plug other)) →
  Respects R (copyInputsAndValues srcPlug dstPlug ignoreDefaultValues).
Proof.
  revert srcPlug.
  induction dstPlug as [id name dir dyn def cs IH] using Plug_ind'.
  intros srcPlug HsetInput HsetFrom w.
  rewrite copyInputsAndValues_unfold.
  pose proof (elem_of_flatten_self (mkPlug id name dir dyn def cs)) as Hself.
  destruct (getInput srcPlug (graph w)) as [input|]; [by apply HsetInput|].
  destruct cs as [|c cs].
  - simpl children. cbv iota. revert w. unfold copyLeaf.
    apply respects_bind; [done|by apply HsetInput|]. intros _.
    destruct (isValuePlug srcPlug); [|by apply respects_ret].
    apply respects_bind; [done|by apply respects_gets|]. intros srcDefault.
    destruct (negb ignoreDefaultValues || negb srcDefault); [|by apply respects_ret].
    destruct (isValuePlug _); [by apply HsetFrom|by apply respects_ret].
  - simpl children. cbv iota. revert w. unfold copyChildren.
    apply respects_forEach; [done|]. intros child Hchild.
    destruct (getChild srcPlug (getName child)) as [srcChild|]; [|by apply respects_ret].
    rewrite Forall_forall in IH. apply IH; [done|..].
    + intros plug input Hplug. apply HsetInput.
      by apply (elem_of_flatten_child _ child).
    + intros plug other Hplug. apply HsetFrom.
      by apply (elem_of_flatten_child _ child).
Qed.

Lemma transferOutputs_respects srcPlug dstPlug :
  (∀ plug input, Respects R (setInput plug input)) →
  Respects R (transferOutputs srcPlug dstPlug).
Proof.
  intros HsetInput. revert dstPlug.
  induction srcPlug as [id name dir dyn def cs IH] using Plug_ind'.
  intros dstPlug w. rewrite transferOutputs_unfold.
  generalize (outputs (mkPlug id name dir dyn def cs) (graph w)). intros outs.
  revert w. apply respects_bind; [done|..].
  - apply respects_forEach; [done|]. intros outputPlug _. apply HsetInput.
  - intros _. unfold transferChildren. simpl children.
    apply respects_forEach; [done|]. intros child Hchild.
    destruct (getChild dstPlug (getName child)) as [dstChild|]; [|by apply respects_ret].
    rewrite Forall_forall in IH. by apply IH.
Qed.

End RespectsTransfers.

(** *** Statements that leave the children of the node alone *)

Section TableStatements.

(** A relation that holds whenever only the tables of the graph
    (inputs, values, metadata) changed. *)
Context (R : relation World) `{!PreOrder R}.
Hypothesis tables :
  ∀ w g', nodeChildren g' = nodeChildren (graph w) → R w (mkWorld g' (log w)).

Lemma setInput_tables plug input : Respects R (setInput plug input).
Proof.
  intros w. unfold setInput.
  destruct input as [i|]; [destruct (acceptsInput plug i)|]; simpl;
    try reflexivity; by apply tables.
Qed.

Lemma setFrom_tables plug other : Respects R (setFrom plug other).
Proof.
  intros w. unfold setFrom, mbind, M_bind, gets. simpl.
  destruct (getValue other (graph w)) as [v|]; [|simpl; reflexivity].
  destruct (defaultValue plug) as [d|]; [|simpl; reflexivity].
  destruct (sameType d v); simpl; [by apply tables|reflexivity].
Qed.

Lemma registerValue_tables target key value persistent :
  Respects R (registerValue target key value persistent).
Proof. intros w. simpl. by apply tables. Qed.

Lemma MetadataAlgo_copy_tables from to : Respects R (MetadataAlgo_copy from to).
Proof.
  unfold MetadataAlgo_copy.
  apply respects_bind; [done|apply respects_gets; done|]. intros keys.
  apply respects_forEach; [done|]. intros key _.
  apply respects_bind; [done|apply respects_gets; done|]. intros [[value persistent]|].
  - apply registerValue_tables.
  - by apply respects_ret.
Qed.

Lemma convertPersistentMetadata_tables plug : Respects R (convertPersistentMetadata plug).
Proof.
  unfold convertPersistentMetadata.
  apply respects_bind; [done|apply respects_gets; done|]. intros keys.
  apply respects_forEach; [done|]. intros key _.
  apply respects_bind; [done|apply respects_gets; done|]. intros [[value persistent]|].
  - apply registerValue_tables.
  - by apply respects_ret.
Qed.

Lemma transfer_tables oldPlug newPlug prior : Respects R (transfer oldPlug newPlug prior).
Proof.
  unfold transfer.
  apply respects_bind; [done|..].
  - destruct (_ && _); [|by apply respects_ret].
    apply copyInputsAndValues_respects; [done|..]; intros.
    + apply setInput_tables.
    + apply setFrom_tables.
  - intros _. apply respects_bind; [done|..].
    + apply transferOutputs_respects; [done|]. apply setInput_tables.
    + intros _. apply MetadataAlgo_copy_tables.
Qed.

End TableStatements.

(** *** Statements that return *)

Definition Total {A} (m : M A) : Prop := ∀ w, ∃ a, (m w).1 = Ok a.

Lemma total_ret {A} (a : A) : Total (mret a).
Proof. intros w. by exists a. Qed.

Lemma total_gets {A} (f : Graph → A) : Total (gets f).
Proof. intros w. by eexists. Qed.

Lemma total_modify f : Total (modify f).
Proof. intros w. by eexists. Qed.

Lemma total_emit e : Total (emit e).
Proof. intros w. by eexists. Qed.

Lemma total_bind {A B} (m : M A) (k : A → M B) :
  Total m → (∀ a, Total (k a)) → Total (m ≫= k).
Proof.
  intros Hm Hk w. unfold mbind, M_bind. destruct (Hm w) as [a Ha].
  destruct (m w) as [r w']; simpl in Ha; subst r. apply Hk.
Qed.

Lemma total_forEach {A} (l : list A) (body : A → M unit) :
  (∀ x, Total (body x)) → Total (forEach l body).
Proof.
  intros Hbody. induction l as [|x l IH]; simpl.
  - apply total_ret.
  - apply total_bind; [apply Hbody|]. intros _. apply IH.
Qed.

Lemma total_forEachWith {A S} (l : list A) (s : S) (body : S → A → M S) :
  (∀ s x, Total (body s x)) → Total (forEachWith l s body).
Proof.
  intros Hbody. revert s. induction l as [|x l IH]; intros s; simpl.
  - apply total_ret.
  - apply total_bind; [apply Hbody|]. intros s'. apply IH.
Qed.

(** Whatever the body throws is caught. *)
Lemma total_tryCatch body handler :
  (∀ e, Total (handler e)) → Total (tryCatch body handler).
Proof.
  intros Hhandler w. unfold tryCatch.
  destruct (body w) as [[[]|e] w']; [by eexists|apply Hhandler].
Qed.

Lemma total_registerValue target key value persistent :
  Total (registerValue target key value persistent).
Proof. apply total_modify. Qed.

Lemma total_convertPersistentMetadata plug : Total (convertPersistentMetadata plug).
Proof.
  unfold convertPersistentMetadata.
  apply total_bind; [apply total_gets|]. intros keys.
  apply total_forEach. intros key.
  apply total_bind; [apply total_gets|]. intros [[value persistent]|].
  - apply total_registerValue.
  - apply total_ret.
Qed.

Lemma total_removeChildPlug id : Total (removeChildPlug id).
Proof.
  unfold removeChildPlug. apply total_bind; [apply total_gets|].
  intros old. apply total_modify.
Qed.

Lemma total_runScript loaded : Total (runScript loaded).
Proof.
  unfold runScript. apply total_bind.
  - apply total_forEachWith. intros newChildren [child|plug];
      (apply total_bind; [apply total_modify|intros _; apply total_ret]).
  - intros newChildren. repeat (apply total_bind; [apply total_modify|intros _]).
    apply total_ret.
Qed.

(** One round of the reconciliation returns, whatever the transfer
    does. *)
Lemma total_reconcile fileName prior entry : Total (reconcile fileName prior entry).
Proof.
  unfold reconcile.
  apply total_bind; [apply total_gets|]. intros oldPlug.
  apply total_bind; [apply total_gets|]. intros newPlug.
  apply total_bind; [|intros _; apply total_removeChildPlug].
  destruct newPlug as [newPlug|]; [|apply total_ret].
  destruct oldPlug as [oldPlug|]; [|apply total_ret].
  apply total_tryCatch. intros e.
  apply total_bind; [apply total_gets|]. intros nodeName. apply total_emit.
Qed.

(** *** What a load leaves in the log *)

(** The second world has the log of the first, followed by warnings. *)
Definition warned (w w' : World) : Prop :=
  ∃ ws, log w' = log w ++ ws ∧ Forall (λ e, isWarning e = true) ws.

#[local] Instance warned_preorder : PreOrder warned.
Proof.
  split.
  - intros w. exists []. by rewrite app_nil_r.
  - intros w1 w2 w3 (ws1 & H1 & Hws1) (ws2 & H2 & Hws2).
    exists (ws1 ++ ws2). rewrite H2, H1, (assoc_L (++)). split; [done|].
    by apply Forall_app.
Qed.

Lemma warned_graph w g' : warned w (mkWorld g' (log w)).
Proof. exists []. by rewrite app_nil_r. Qed.

Lemma warned_modify f : Respects warned (modify f).
Proof. intros w. apply warned_graph. Qed.

Lemma warned_emit context message : Respects warned (emit (Warning context message)).
Proof. intros w. exists [Warning context message]. split; [done|]. by repeat constructor. Qed.

Ltac total :=
  repeat lazymatch goal with
  | |- Total (mret _) => apply total_ret
  | |- Total (gets _) => apply total_gets
  | |- Total (modify _) => apply total_modify
  | |- Total (emit _) => apply total_emit
  | |- Total (setName _ _) => apply total_modify
  | |- Total (setFlagsDynamic _ _) => apply total_modify
  | |- Total (removeChildNode _) => apply total_modify
  | |- Total (convertPersistentMetadata _) => apply total_convertPersistentMetadata
  | |- Total (removeChildPlug _) => apply total_removeChildPlug
  | |- Total (runScript _) => apply total_runScript
  | |- Total (reconcile _ _ _) => apply total_reconcile
  | |- Total (mbind _ _) => apply total_bind
  | |- Total (forEach _ _) => apply total_forEach
  | |- Total (forEachWith _ _ _) => apply total_forEachWith
  | |- Total (match ?x with _ => _ end) => destruct x
  | |- ∀ _, _ => intros
  end.

Ltac quiet :=
  repeat lazymatch goal with
  | |- Respects _ (mret _) => apply respects_ret; [typeclasses eauto]
  | |- Respects _ (gets _) => apply respects_gets; [typeclasses eauto]
  | |- Respects _ (modify _) => apply warned_modify
  | |- Respects _ (emit _) => apply warned_emit
  | |- Respects _ (setName _ _) => apply warned_modify
  | |- Respects _ (setFlagsDynamic _ _) => apply warned_modify
  | |- Respects _ (removeChildNode _) => apply warned_modify
  | |- Respects _ (convertPersistentMetadata _) =>
      apply convertPersistentMetadata_tables;
        [typeclasses eauto|intros; apply warned_graph]
  | |- Respects _ (transfer _ _ _) =>
      apply transfer_tables; [typeclasses eauto|intros; apply warned_graph]
  | |- Respects _ (mbind _ _) => apply respects_bind; [typeclasses eauto|..]
  | |- Respects _ (forEach _ _) => apply respects_forEach; [typeclasses eauto|]
  | |- Respects _ (forEachWith _ _ _) => apply respects_forEachWith; [typeclasses eauto|]
  | |- Respects _ (tryCatch _ _) => apply respects_tryCatch; [typeclasses eauto|..]
  | |- Respects _ (match ?x with _ => _ end) => destruct x
  | |- ∀ _, _ => intros
  end.

Lemma warned_removeChildPlug id : Respects warned (removeChildPlug id).
Proof. unfold removeChildPlug. quiet. Qed.

Lemma warned_reconcile fileName prior entry :
  Respects warned (reconcile fileName prior entry).
Proof. unfold reconcile. quiet. apply warned_removeChildPlug. Qed.

Lemma warned_runScript loaded : Respects warned (runScript loaded).
Proof. unfold runScript. quiet. Qed.

(** One statement after another, while only warnings are logged. *)
Lemma step {A B} (Φ : Result B * World → Prop) (m : M A) (k : A → M B) w0 w :
  Total m → Respects warned m → warned w0 w →
  (∀ a w', warned w0 w' → Φ (k a w')) →
  Φ ((m ≫= k) w).
Proof.
  intros Htotal Hquiet Hw Hk. unfold mbind, M_bind.
  destruct (Htotal w) as [a Ha]. specialize (Hquiet w).
  destruct (m w) as [r w']; simpl in *; subst r.
  apply Hk. by etrans.
Qed.

Lemma bind_assoc {A B C} (m : M A) (k : A → M B) (k' : B → M C) w :
  ((m ≫= k) ≫= k') w = (m ≫= λ a, k a ≫= k') w.
Proof. unfold mbind, M_bind. by destruct (m w) as [[a|e] w']. Qed.

(** Whether the load of a file recorded errors. *)
Definition loadErrors (fileName : string) : bool :=
  bool_decide (fileName ≠ EmptyString) && hadErrors (executeFile fileName).

(** What [loadInternal] leaves: warnings, then the signal with the node
    as it is at the end, the file name recorded; an exception exactly
    when the load recorded errors. *)
Definition loadedPost (fileName : string) (w0 : World) (out : Result unit * World) : Prop :=
  ∃ warnings,
    Forall (λ e, isWarning e = true) warnings ∧
    log out.2 = log w0 ++ warnings ++ [ReferenceLoaded (graph out.2)] ∧
    m_fileName (graph out.2) = fileName ∧
    out.1 = if loadErrors fileName
            then Throw (IECoreException ("Error loading reference " +:+ quoted fileName))
            else Ok ().

Lemma loadInternal_post fileName w0 w :
  warned w0 w → loadedPost fileName w0 (loadInternal fileName w).
Proof.
  intros Hw. unfold loadInternal.
  eapply (step _ _ _ w0); [total|quiet|exact Hw|clear w Hw; intros plugs w Hw].
  eapply (step _ _ _ w0); [total|quiet|exact Hw|clear w Hw; intros previousPlugs w Hw].
  clear plugs.
  eapply (step _ _ _ w0); [total|quiet|exact Hw|clear w Hw; intros user w Hw].
  eapply (step _ _ _ w0); [total|quiet|exact Hw|clear w Hw previousPlugs; intros previousPlugs w Hw].
  eapply (step _ _ _ w0); [total|quiet|exact Hw|clear w Hw; intros nodes w Hw].
  eapply (step _ _ _ w0); [total|quiet|exact Hw|clear w Hw; intros _ w Hw].
  assert (∀ (k : list GraphComponent * bool → M unit),
            (∀ newChildren w', warned w0 w' →
               loadedPost fileName w0 (k (newChildren, loadErrors fileName) w')) →
            loadedPost fileName w0
              (((if bool_decide (fileName ≠ EmptyString)
                 then newChildren ← runScript (executeFile fileName);
                      mret (newChildren, hadErrors (executeFile fileName))
                 else mret ([], false)) ≫= k) w)) as Hscript.
  { intros k Hk. unfold loadErrors in Hk. destruct (bool_decide _); simpl in Hk.
    - rewrite bind_assoc.
      eapply (step _ _ _ w0); [apply total_runScript|apply warned_runScript|exact Hw|].
      intros newChildren w' Hw'. by apply Hk.
    - by apply Hk. }
  apply Hscript. clear w Hw Hscript. intros newChildren w Hw.
  eapply (step _ _ _ w0); [total|quiet|exact Hw|clear w Hw; intros _ w Hw].
  eapply (step _ _ _ w0); [total|quiet|exact Hw|clear w Hw; intros milestone w Hw].
  eapply (step _ _ _ w0); [total|quiet|exact Hw|clear w Hw; intros major w Hw].
  eapply (step _ _ _ w0);
    [apply total_forEach; intros; apply total_reconcile
    |apply respects_forEach; [typeclasses eauto|]; intros; apply warned_reconcile
    |exact Hw|clear w Hw; intros _ w Hw].
  destruct Hw as (ws & Hlog & Hws).
  exists ws. unfold mbind, M_bind; simpl.
  destruct (loadErrors fileName); simpl; rewrite Hlog, <- (assoc_L (++)); done.
Qed.

(** *** Loading *)

(** C9. A load without a script node throws at once: the world is left
    as it was, so no plug is renamed or removed, no child node is
    destroyed and no signal is fired. *)
Theorem C9_load_without_script fileName w :
  scriptNode (graph w) = false →
  load fileName w
    = (Throw (IECoreException "Reference::load called without ScriptNode"), w).
Proof.
  intros Hscript. unfold load, mbind, M_bind, gets. simpl. by rewrite Hscript.
Qed.

(** C7, as the code has it. After a load attempt on a node with a script
    node, [fileName()] is the file of that attempt, whether or not its
    execution recorded errors; a load without a script node leaves
    [fileName()] as it was. *)
Theorem C7_fileName_is_last_attempt file w :
  fileName (graph (load file w).2)
    = if scriptNode (graph w) then file else fileName (graph w).
Proof.
  unfold load, mbind, M_bind, gets. simpl.
  destruct (scriptNode (graph w)); simpl; [|done].
  destruct (loadInternal_post file w w) as (ws & _ & _ & Hfile & _); [reflexivity|].
  exact Hfile.
Qed.

(** *** The plugs a reference brought *)

(** [ancestor] is the ancestor of a plug hanging at [parent] that is a
    direct child of the reference node. *)
Inductive DirectChildAncestor : Plug → Parent → Plug → Prop :=
  | ancestor_self plug : DirectChildAncestor plug ThisNode plug
  | ancestor_above plug above parent ancestor :
      DirectChildAncestor above parent ancestor →
      DirectChildAncestor plug (ParentPlug above parent) ancestor.

Lemma ancestorPlug_DirectChildAncestor plug parent ancestor :
  DirectChildAncestor plug parent ancestor → ancestorPlug plug parent = Some ancestor.
Proof. induction 1; simpl; done. Qed.

(** C5. For a plug of a reference node, with [ancestor] its ancestor
    directly under the node and [user] the user plug of the node:
    [isReferencePlug] is false when the name of [ancestor] starts with
    ["__"], false when the plug is [user], false when [ancestor] is
    [user] and the plug is dynamic, and true in every other case. *)
Theorem C5_isReferencePlug plug parent ancestor user g :
  DirectChildAncestor plug parent ancestor →
  userPlug g = Some user →
  (starts_with (getName ancestor) "__" = true → isReferencePlug plug parent g = false) ∧
  (plugId plug = plugId user → isReferencePlug plug parent g = false) ∧
  (plugId ancestor = plugId user → dynamic plug = true →
     isReferencePlug plug parent g = false) ∧
  (starts_with (getName ancestor) "__" = false →
   plugId plug ≠ plugId user →
   ¬ (plugId ancestor = plugId user ∧ dynamic plug = true) →
     isReferencePlug plug parent g = true).
Proof.
  intros Hancestor Huser. unfold isReferencePlug.
  rewrite (ancestorPlug_DirectChildAncestor _ _ _ Hancestor), Huser. simpl.
  repeat split.
  - by intros ->.
  - intros Hplug. destruct (starts_with _ _); [done|].
    rewrite bool_decide_eq_true_2; [done|by rewrite Hplug].
  - intros Hanc Hdyn. destruct (starts_with _ _); [done|].
    case_bool_decide; [done|].
    rewrite bool_decide_eq_true_2; [by rewrite Hdyn|by rewrite Hanc].
  - intros -> Hplug Hdyn.
    rewrite bool_decide_eq_false_2; [|by intros [= ?]].
    case_bool_decide as Hanc; [|done]. injection Hanc as Hanc.
    destruct (dynamic plug); [|done]. exfalso. by apply Hdyn.
Qed.

(** *** Removing the old plugs *)

(** The identities of the plugs of the reference node. *)
Definition plugIds (g : Graph) : list PlugId := plugId <$> flattenAll (plugChildren g).

Fixpoint removeAmong (id : PlugId) (cs : list Plug) : list Plug :=
  match cs with
  | [] => []
  | c :: cs' =>
      if bool_decide (plugId c = id) then removeAmong id cs'
      else removePlug id c :: removeAmong id cs'
  end.

Lemma removePlug_unfold id plug :
  removePlug id plug = withChildren (removeAmong id (children plug)) plug.
Proof.
  destruct plug as [id' name dir dyn def cs]. unfold withChildren. simpl. f_equal.
  induction cs as [|c cs IH]; simpl; [done|].
  case_bool_decide; by rewrite IH.
Qed.

Lemma elem_of_removeAmong id cs c' :
  c' ∈ removeAmong id cs ↔ ∃ c, c ∈ cs ∧ plugId c ≠ id ∧ c' = removePlug id c.
Proof.
  induction cs as [|c cs IH]; simpl.
  - split; [by intros ?%elem_of_nil|by intros (c & ?%elem_of_nil & _)].
  - case_bool_decide as Hid.
    + rewrite IH. split.
      * intros (c0 & Hc0 & Hne & ->). exists c0. split; [by right|done].
      * intros (c0 & [->|Hc0]%elem_of_cons & Hne & ->); [done|by exists c0].
    + rewrite elem_of_cons, IH. split.
      * intros [->|(c0 & Hc0 & Hne & ->)]; [exists c; split; [left|done]|].
        exists c0. split; [by right|done].
      * intros (c0 & [->|Hc0]%elem_of_cons & Hne & ->); [by left|right; by exists c0].
Qed.

(** Below a plug that stays, removal leaves no plug of the removed
    identity and adds none. *)
Lemma flatten_removePlug id plug q :
  q ∈ flatten (removePlug id plug) →
  plugId q ∈ plugId <$> flatten plug ∧ (plugId q = id → plugId plug = id).
Proof.
  revert q. induction plug as [id' name dir dyn def cs IH] using Plug_ind'.
  intros q. rewrite removePlug_unfold, !flatten_unfold. simpl.
  intros [->|Hq]%elem_of_cons; [split; [left|done]|].
  apply elem_of_flattenAll in Hq as (c' & Hc' & Hq).
  apply elem_of_removeAmong in Hc' as (c & Hc & Hne & ->).
  rewrite Forall_forall in IH. destruct (IH c Hc q Hq) as [Hin Hid]. split.
  - right. apply list_elem_of_fmap in Hin as (q0 & -> & Hq0).
    apply list_elem_of_fmap. exists q0. split; [done|].
    apply elem_of_flattenAll. by exists c.
  - intros Heq. by apply Hid in Heq.
Qed.

Lemma plugChildren_removeComponentPlug id cs g :
  nodeChildren g = removeComponentPlug id cs →
  plugChildren g
    = removeAmong id (omap (λ c, match c with
                                 | PlugComponent p => Some p
                                 | NodeComponent _ => None
                                 end) cs).
Proof.
  unfold plugChildren. intros ->. unfold removeComponentPlug.
  induction cs as [|[p|n] cs IH]; [done|..].
  - cbn [omap list_omap removeAmong]. case_bool_decide; cbn [omap list_omap].
    + exact IH.
    + f_equal. exact IH.
  - cbn [omap list_omap]. exact IH.
Qed.

Lemma plugIds_removeChildPlug id w x :
  x ∈ plugIds (graph (removeChildPlug id w).2) →
  x ∈ plugIds (graph w) ∧ x ≠ id.
Proof.
  unfold removeChildPlug, mbind, M_bind, gets, modify, plugIds. simpl.
  rewrite (plugChildren_removeComponentPlug id (nodeChildren (graph w))) by done.
  fold (plugChildren (graph w)).
  intros (q & -> & Hq)%list_elem_of_fmap.
  apply elem_of_flattenAll in Hq as (c' & Hc' & Hq).
  apply elem_of_removeAmong in Hc' as (c & Hc & Hne & ->).
  destruct (flatten_removePlug id c q Hq) as [Hin Hid]. split.
  - apply list_elem_of_fmap in Hin as (q0 & -> & Hq0).
    apply list_elem_of_fmap. exists q0. split; [done|].
    apply elem_of_flattenAll. by exists c.
  - intros Heq. by apply Hid in Heq.
Qed.

(** The node has no plug it did not have before. *)
Definition shrinks (w w' : World) : Prop := plugIds (graph w') ⊆ plugIds (graph w).

#[local] Instance shrinks_preorder : PreOrder shrinks.
Proof.
  split.
  - intros w. unfold shrinks. done.
  - intros w1 w2 w3 H12 H23. unfold shrinks in *. by etrans.
Qed.

Lemma shrinks_tables w g' :
  nodeChildren g' = nodeChildren (graph w) → shrinks w (mkWorld g' (log w)).
Proof. intros Heq. unfold shrinks, plugIds, plugChildren. simpl. by rewrite Heq. Qed.

Lemma shrinks_reconcile fileName prior entry :
  Respects shrinks (reconcile fileName prior entry).
Proof.
  unfold reconcile.
  apply respects_bind; [typeclasses eauto|apply respects_gets; typeclasses eauto|].
  intros oldPlug.
  apply respects_bind; [typeclasses eauto|apply respects_gets; typeclasses eauto|].
  intros newPlug.
  apply respects_bind; [typeclasses eauto|..].
  - destruct newPlug as [newPlug|]; [|apply respects_ret; typeclasses eauto].
    destruct oldPlug as [oldPlug|]; [|apply respects_ret; typeclasses eauto].
    apply respects_tryCatch; [typeclasses eauto|..].
    + apply transfer_tables; [typeclasses eauto|apply shrinks_tables].
    + intros e w. unfold shrinks. done.
  - intros _ w x Hx. by apply plugIds_removeChildPlug in Hx as [Hx _].
Qed.

(** What the [try] block and its handler leave of a world. *)
Definition transferred (fileName : string) (prior : bool) (entry : string * PlugId)
    (w : World) : World :=
  match descendant entry.1 (graph w), findPlug entry.2 (graph w) with
  | Some newPlug, Some oldPlug =>
      match transfer oldPlug newPlug prior w with
      | (Ok _, w') => w'
      | (Throw e, w') =>
          mkWorld (graph w')
            (log w' ++ [Warning ("Loading " +:+ quoted fileName +:+ " onto "
                                   +:+ quoted (name (graph w')))
                          (what e)])
      end
  | _, _ => w
  end.

Lemma reconcile_transferred fileName prior entry w :
  reconcile fileName prior entry w
    = removeChildPlug entry.2 (transferred fileName prior entry w).
Proof.
  unfold reconcile, transferred, mbind, M_bind, gets, tryCatch. simpl.
  destruct (descendant entry.1 (graph w)) as [newPlug|]; [|done].
  destruct (findPlug entry.2 (graph w)) as [oldPlug|]; [|done].
  by destruct (transfer oldPlug newPlug prior w) as [[[]|e] w'].
Qed.

(** C8. Reconciliation tolerates failures.  One round of the loop is the
    transfer followed by the removal of the old plug: when the transfer
    throws, what it did so far stays, a warning with the text of the
    exception is logged and the round goes on; when there is no new plug
    of that name nothing is transferred.  In every case the round returns
    and the old plug is no longer a plug of the node.  The whole loop
    returns, logs warnings only, and leaves none of the old plugs. *)
Theorem C8_reconciliation_tolerates_failures fileName prior :
  (∀ entry w,
     let out := reconcile fileName prior entry w in
     out = removeChildPlug entry.2 (transferred fileName prior entry w) ∧
     out.1 = Ok () ∧
     entry.2 ∉ plugIds (graph out.2)) ∧
  (∀ previousPlugs w,
     let out := forEach previousPlugs (reconcile fileName prior) w in
     out.1 = Ok () ∧
     warned w out.2 ∧
     ∀ entry, entry ∈ previousPlugs → entry.2 ∉ plugIds (graph out.2)).
Proof.
  split.
  - intros entry w out. split; [apply reconcile_transferred|]. split.
    + destruct (total_reconcile fileName prior entry w) as [[] Hok]. exact Hok.
    + subst out. rewrite reconcile_transferred.
      intros Hin. by apply plugIds_removeChildPlug in Hin as [_ Hne].
  - intros previousPlugs w out. subst out. split; [|split].
    + destruct (total_forEach previousPlugs (reconcile fileName prior)
                  (total_reconcile fileName prior) w) as [[] Hok].
      exact Hok.
    + apply respects_forEach; [typeclasses eauto|].
      intros entry _. apply warned_reconcile.
    + revert w. induction previousPlugs as [|first rest IH]; intros w entry Hentry.
      { by apply elem_of_nil in Hentry. }
      simpl. unfold mbind, M_bind.
      destruct (total_reconcile fileName prior first w) as [[] Hok].
      pose proof (reconcile_transferred fileName prior first w) as Hround.
      destruct (reconcile fileName prior first w) as [r w1] eqn:Hrun.
      simpl in Hok. subst r.
      apply elem_of_cons in Hentry as [->|Hentry]; [|by apply IH].
      intros Hin.
      assert (shrinks w1 (forEach rest (reconcile fileName prior) w1).2) as Hshrinks.
      { apply respects_forEach; [typeclasses eauto|].
        intros e _. apply shrinks_reconcile. }
      apply Hshrinks in Hin.
      assert (w1 = (removeChildPlug first.2 (transferred fileName prior first w)).2)
        as -> by (by rewrite <- Hround).
      by apply plugIds_removeChildPlug in Hin as [_ Hne].
Qed.

(** *** Connections touch the plug and its descendants only *)

Fixpoint connectChildren (cs inputChildren : list Plug)
    (table : gmap PlugId PlugId) : gmap PlugId PlugId :=
  match cs with
  | [] => table
  | c :: cs' => connectChildren cs' (tail inputChildren) (connect c (head inputChildren) table)
  end.

Lemma connect_unfold plug input table :
  connect plug input table =
  connectChildren (children plug)
    (match input with Some i => children i | None => [] end)
    (match input with
     | Some i => <[plugId plug := plugId i]> table
     | None => delete (plugId plug) table
     end).
Proof.
  destruct plug as [id name dir dyn def cs]. simpl.
  generalize (match input with Some i => children i | None => [] end).
  generalize (match input with
              | Some i => <[id := plugId i]> table
              | None => delete id table
              end).
  induction cs as [|c cs IH]; intros t ics; simpl; [done|]. apply IH.
Qed.

Lemma ids_flatten plug :
  plugId <$> flatten plug = plugId plug :: (plugId <$> flattenAll (children plug)).
Proof. by rewrite flatten_unfold. Qed.

Lemma ids_flattenAll_cons c cs :
  plugId <$> flattenAll (c :: cs) = (plugId <$> flatten c) ++ (plugId <$> flattenAll cs).
Proof. unfold flattenAll. simpl. by rewrite fmap_app. Qed.

Lemma connect_frame plug input table x :
  x ∉ plugId <$> flatten plug → connect plug input table !! x = table !! x.
Proof.
  revert input table.
  induction plug as [id name dir dyn def cs IH] using Plug_ind'.
  intros input table Hx. rewrite connect_unfold. rewrite ids_flatten in Hx.
  simpl in *. apply not_elem_of_cons in Hx as [Hid Hx].
  transitivity ((match input with
                 | Some i => <[id := plugId i]> table
                 | None => delete id table
                 end) !! x).
  - generalize (match input with Some i => children i | None => [] end).
    generalize (match input with
                | Some i => <[id := plugId i]> table
                | None => delete id table
                end).
    induction cs as [|c cs IHcs]; intros t ics; simpl; [done|].
    rewrite ids_flattenAll_cons in Hx. apply not_elem_of_app in Hx as [Hc Hcs].
    inversion IH as [|? ? IHc IHrest]; subst.
    rewrite IHcs by done. by apply IHc.
  - destruct input; [by rewrite lookup_insert_ne|by rewrite lookup_delete_ne].
Qed.



Lemma elem_of_flatten_trans p q r : p ∈ flatten q → q ∈ flatten r → p ∈ flatten r.
Proof.
  revert q. induction r as [id name dir dyn def cs IH] using Plug_ind'.
  intros q Hp. rewrite !(flatten_unfold (mkPlug _ _ _ _ _ _)). simpl.
  intros [->|Hq]%elem_of_cons; [by rewrite flatten_unfold in Hp|].
  right. apply elem_of_flattenAll in Hq as (c & Hc & Hq).
  apply elem_of_flattenAll. exists c. split; [done|].
  rewrite Forall_forall in IH. by eapply IH.
Qed.

Lemma ids_flatten_subset p q :
  p ∈ flatten q → plugId <$> flatten p ⊆ plugId <$> flatten q.
Proof.
  intros Hp x (p' & -> & Hp')%list_elem_of_fmap.
  apply list_elem_of_fmap. exists p'. split; [done|]. by eapply elem_of_flatten_trans.
Qed.

(** *** What a copy leaves alone *)

(** The second world has the plugs of the first, and the inputs and values
    of the first outside [ids]. *)
Definition frame (ids : list PlugId) (w w' : World) : Prop :=
  nodeChildren (graph w') = nodeChildren (graph w) ∧
  elsewhere (graph w') = elsewhere (graph w) ∧
  ∀ x, x ∉ ids →
    inputs (graph w') !! x = inputs (graph w) !! x ∧
    values (graph w') !! x = values (graph w) !! x.

#[local] Instance frame_preorder ids : PreOrder (frame ids).
Proof.
  split.
  - intros w. by repeat split.
  - intros w1 w2 w3 (Hn12 & He12 & H12) (Hn23 & He23 & H23).
    split; [congruence|]. split; [congruence|].
    intros x Hx. destruct (H12 x Hx) as [Hi Hv]. destruct (H23 x Hx) as [Hi' Hv'].
    split; congruence.
Qed.

Lemma frame_mono ids ids' w w' : ids ⊆ ids' → frame ids w w' → frame ids' w w'.
Proof.
  intros Hsub (Hn & He & Hframe). split; [done|]. split; [done|].
  intros x Hx. apply Hframe. intros Hin. apply Hx. by apply Hsub.
Qed.

Lemma setInput_frame plug input :
  Respects (frame (plugId <$> flatten plug)) (setInput plug input).
Proof.
  intros w. unfold setInput.
  destruct input as [i|]; [destruct (acceptsInput plug i)|]; simpl;
    try reflexivity; (split; [done|]; split; [done|]; intros x Hx;
                      split; [by apply connect_frame|done]).
Qed.

Lemma setFrom_frame plug other :
  Respects (frame (plugId <$> flatten plug)) (setFrom plug other).
Proof.
  intros w. unfold setFrom, mbind, M_bind, gets. simpl.
  destruct (getValue other (graph w)) as [v|]; [|simpl; reflexivity].
  destruct (defaultValue plug) as [d|]; [|simpl; reflexivity].
  destruct (sameType d v); simpl; [|reflexivity].
  split; [done|]. split; [done|]. intros x Hx. split; [done|].
  rewrite ids_flatten in Hx. apply not_elem_of_cons in Hx as [Hne _].
  apply lookup_insert_ne. congruence.
Qed.

Lemma copyInputsAndValues_frame srcPlug dstPlug ignoreDefaultValues :
  Respects (frame (plugId <$> flatten dstPlug))
    (copyInputsAndValues srcPlug dstPlug ignoreDefaultValues).
Proof.
  apply copyInputsAndValues_respects; [typeclasses eauto|..].
  - intros plug input Hplug w.
    eapply frame_mono; [by apply ids_flatten_subset|apply setInput_frame].
  - intros plug other Hplug w.
    eapply frame_mono; [by apply ids_flatten_subset|apply setFrom_frame].
Qed.



Lemma getChild_elem plug name child :
  getChild plug name = Some child → child ∈ children plug.
Proof.
  unfold getChild. intros [Hin _]%find_some. by apply list_elem_of_In.
Qed.

(** *** The pairs a copy visits *)











End Transfers.

(** C7 fails on the code. The example node has loaded [good.grf]; the
    attempt to load [bad.grf] records errors and ends in the exception,
    and [fileName()] is [bad.grf] afterwards. *)
Lemma C7_counterexample :
  scriptNode (graph exampleWorld) = true ∧
  fileName (graph exampleWorld) = "good.grf" ∧
  hadErrors (executeFile (Collaborators:=exampleCollaborators) "bad.grf") = true ∧
  isOk (load (H:=exampleCollaborators) "bad.grf" exampleWorld).1 = false ∧
  fileName (graph (load (H:=exampleCollaborators) "bad.grf" exampleWorld).2) = "bad.grf".
Proof. repeat split; by vm_compute. Qed.

Lemma C9_witness :
  let w := mkWorld (mkGraph false "ref" [] [] ∅ ∅ ∅ "") [] in
  scriptNode (graph w) = false ∧
  load (H:=exampleCollaborators) "good.grf" w
    = (Throw (IECoreException "Reference::load called without ScriptNode"), w).
Proof.
  split; [reflexivity|].
  apply (C9_load_without_script (H:=exampleCollaborators)). reflexivity.
Defined.

(** The plug [note] under the user plug of the example is dynamic, so it
    was not brought by a reference; [y] under [size] was. *)
Lemma C5_witness :
  let user := mkPlug 1 "user" In false None
                [mkPlug 2 "note" In true (Some (StringData "")) []] in
  let note := mkPlug 2 "note" In true (Some (StringData "")) [] in
  isReferencePlug note (ParentPlug user ThisNode) exampleGraph = false.
Proof.
  intros user note.
  refine (proj1 (proj2 (proj2
    (C5_isReferencePlug note (ParentPlug user ThisNode) user user exampleGraph _ _))) _ _).
  - apply ancestor_above, ancestor_self.
  - reflexivity.
  - reflexivity.
  - reflexivity.
Defined.

End ReferenceProofs.
(** ** More about the tokenizer *)

Section TokenizerMore.

Variable delim : ascii.

(** Whether a character occurs in a string. *)
Fixpoint hasChar (c : ascii) (s : string) : bool :=
  match s with
  | EmptyString => false
  | String c' s' => Ascii.eqb c' c || hasChar c s'
  end.

(** A root string written from a path: every name after a delimiter. *)
Fixpoint joinPath (names : list string) : string :=
  match names with
  | [] => EmptyString
  | name :: names' => String delim (name +:+ joinPath names')
  end.

Lemma splitOn_app a b :
  splitOn delim (a +:+ String delim b) = splitOn delim a ++ splitOn delim b.
Proof.
  induction a as [|c a IH]; simpl.
  - by rewrite Ascii.eqb_refl.
  - destruct (Ascii.eqb c delim); [by rewrite IH|].
    change ((fix append (s1 s2 : string) {struct s1} : string :=
               match s1 with
               | EmptyString => s2
               | String c s1' => String c (append s1' s2)
               end) a (String delim b)) with (a +:+ String delim b).
    rewrite IH. by destruct (splitOn_cons delim a) as (seg & segs & ->).
Qed.

Lemma segments_app a b :
  segments delim (a +:+ String delim b) = segments delim a ++ segments delim b.
Proof. unfold segments. by rewrite splitOn_app, List.filter_app. Qed.

Lemma splitOn_hasChar s :
  Forall (λ seg, hasChar delim seg = false) (splitOn delim s).
Proof.
  induction s as [|c s IH]; simpl; [by repeat constructor|].
  destruct (Ascii.eqb c delim) eqn:Hc; [by constructor|].
  destruct (splitOn delim s) as [|seg segs]; [by repeat constructor; simpl; rewrite Hc|].
  inversion IH as [|? ? Hseg Hsegs]; subst. constructor; [|done].
  simpl. by rewrite Hc.
Qed.

Lemma splitOn_no_delim s : hasChar delim s = false → splitOn delim s = [s].
Proof.
  induction s as [|c s IH]; simpl; [done|].
  intros [Hc Hs]%orb_false_elim. rewrite Hc, IH by done. done.
Qed.

Lemma append_empty_r (s : string) : (s +:+ EmptyString)%string = s.
Proof.
  induction s as [|c s IH]; [done|].
  change (String c (s +:+ EmptyString) = String c s). by rewrite IH.
Qed.

Lemma segments_joinPath_cons name names :
  Forall (λ n, nonEmpty n = true ∧ hasChar delim n = false) (name :: names) →
  segments delim (name +:+ joinPath names) = name :: names.
Proof.
  revert name. induction names as [|name' names IH]; intros name Hnames.
  - inversion Hnames as [|? ? [Hne Hno] _]; subst. cbn [joinPath].
    rewrite append_empty_r. unfold segments. rewrite splitOn_no_delim by done.
    simpl. by rewrite Hne.
  - inversion Hnames as [|? ? [Hne Hno] Hrest]; subst.
    cbn [joinPath]. rewrite segments_app, IH by done.
    unfold segments. rewrite splitOn_no_delim by done. simpl. by rewrite Hne.
Qed.

End TokenizerMore.

(** ** More about SubTree *)

Module SubTreeExtra.

Import SubTree SubTreeProofs.

Section Paths.

Context {Box3f M44f Payload Data MurmurHash : Type}.

Implicit Types (input : @ScenePlug Box3f M44f Payload Data MurmurHash).

(** X1. Every name [sourcePath] takes from the root string is non-empty
    and holds no ['/']; the names of the output path follow unchanged. *)
Theorem X1_sourcePath_names input (root : string) (path : ScenePath) :
  ∃ names,
    sourcePath {| inPlug := input; rootPlug := root |} path = names ++ path ∧
    Forall (λ name, name ≠ EmptyString ∧ hasChar "/" name = false) names.
Proof.
  exists (Tokenizer "/" root). split; [done|].
  rewrite Tokenizer_segments. unfold segments. apply Forall_forall.
  intros name [Hin Hne]%list_elem_of_In%filter_In. split.
  - by intros ->.
  - pose proof (splitOn_hasChar "/" root) as Hall. rewrite Forall_forall in Hall.
    apply Hall. by apply list_elem_of_In.
Qed.

(** X2. Round trip of a location through the root plug: for names that
    are non-empty and hold no ['/'], the root string that writes each name
    after a ['/'] is read back by [sourcePath] as those names. *)
Theorem X2_sourcePath_of_joined_path input (names path : ScenePath) :
  Forall (λ name, nonEmpty name = true ∧ hasChar "/" name = false) names →
  sourcePath {| inPlug := input; rootPlug := joinPath "/" names |} path = names ++ path.
Proof.
  intros Hnames. unfold sourcePath. simpl. rewrite Tokenizer_segments. f_equal.
  destruct names as [|name names]; [done|].
  cbn [joinPath].
  change (String "/" (name +:+ joinPath "/" names))
    with (EmptyString +:+ String "/" (name +:+ joinPath "/" names))%string.
  rewrite segments_app. by rewrite segments_joinPath_cons.
Qed.

(** X3. Roots compose: a root string made of two root strings with a
    ['/'] between them leads to the location the second one leads to below
    the first, so every facet computed under the joined root is the facet
    computed under the first root at the source path of the second. *)
Theorem X3_nested_roots input (root1 root2 : string) (path : ScenePath) :
  let joined := {| inPlug := input; rootPlug := root1 +:+ "/" +:+ root2 |} in
  let outer := {| inPlug := input; rootPlug := root1 |} in
  let inner := {| inPlug := input; rootPlug := root2 |} in
  sourcePath joined path = sourcePath outer (sourcePath inner path) ∧
  computeBound joined path = computeBound outer (sourcePath inner path) ∧
  computeTransform joined path = computeTransform outer (sourcePath inner path) ∧
  computeAttributes joined path = computeAttributes outer (sourcePath inner path) ∧
  computeObject joined path = computeObject outer (sourcePath inner path) ∧
  computeChildNames joined path = computeChildNames outer (sourcePath inner path).
Proof.
  intros joined outer inner.
  assert (sourcePath joined path = sourcePath outer (sourcePath inner path)) as Hsource.
  { unfold sourcePath. simpl. rewrite !Tokenizer_segments.
    change (root1 +:+ "/" +:+ root2)%string with (root1 +:+ String "/" root2)%string.
    by rewrite segments_app, (assoc_L (++)). }
  unfold computeBound, computeTransform, computeAttributes, computeObject,
    computeChildNames.
  by rewrite Hsource.
Qed.

(** X4. Separators around the root do not count: an empty root string
    leaves every path as it is, and a ['/'] in front of or behind the root
    string changes no source path. *)
Theorem X4_root_separators input (root : string) (path : ScenePath) :
  sourcePath {| inPlug := input; rootPlug := EmptyString |} path = path ∧
  sourcePath {| inPlug := input; rootPlug := String "/" root |} path
    = sourcePath {| inPlug := input; rootPlug := root |} path ∧
  sourcePath {| inPlug := input; rootPlug := root +:+ "/" |} path
    = sourcePath {| inPlug := input; rootPlug := root |} path.
Proof.
  unfold sourcePath. simpl. rewrite !Tokenizer_segments. split; [done|]. split.
  - change (String "/" root) with (EmptyString +:+ String "/" root)%string.
    by rewrite segments_app.
  - change (root +:+ "/")%string with (root +:+ String "/" EmptyString)%string.
    rewrite segments_app. change (segments "/" EmptyString) with (@nil string).
    by rewrite app_nil_r.
Qed.

End Paths.

Lemma X2_witness :
  sourcePath (exampleSubTree (joinPath "/" ["group1"; "mesh1"]) ∅) ["shape"]
    = ["group1"; "mesh1"; "shape"].
Proof.
  apply (X2_sourcePath_of_joined_path (exampleScene ∅) ["group1"; "mesh1"] ["shape"]).
  repeat constructor.
Defined.

Section GlobalsMore.

Context {Box3f M44f Payload Data MurmurHash : Type}.

Implicit Types (self : @SubTree Box3f M44f Payload Data MurmurHash)
               (entries : list (string * Data)) (acc out fwd : gmap string Data).

Lemma dropChars_prefix (root rest : string) : dropChars (size root) (root +:+ rest) = rest.
Proof.
  induction root as [|c root IH]; [done|].
  change (dropChars (size root) (root +:+ rest) = rest). exact IH.
Qed.

Lemma size_prefix (root rest : string) : (size root ≤ size (root +:+ rest))%nat.
Proof.
  induction root as [|c root IH]; [unfold size; simpl; lia|].
  change (S (size root) ≤ S (size (root +:+ rest)))%nat. lia.
Qed.

(** A key the loop does not produce keeps what it had. *)
Lemma rewriteForwardDeclarations_other root entries acc out k' :
  rewriteForwardDeclarations root entries acc = Ok out →
  k' ∉ (λ entry, dropChars (size root) entry.1) <$> entries →
  out !! k' = acc !! k'.
Proof.
  revert acc. induction entries as [|[k v] entries IH]; intros acc; simpl.
  - by intros [= <-].
  - destruct (substringFrom k (size root)) as [outputPath|] eqn:Hsub; [|done].
    apply substringFrom_Ok in Hsub as [_ ->].
    intros Hrun [Hne Hrest]%not_elem_of_cons.
    rewrite (IH _ Hrun Hrest). by rewrite lookup_insert_ne.
Qed.

(** When no two keys are cut to the same key, every entry keeps its
    value. *)
Lemma rewriteForwardDeclarations_injective root entries acc out k v :
  rewriteForwardDeclarations root entries acc = Ok out →
  NoDup ((λ entry, dropChars (size root) entry.1) <$> entries) →
  (k, v) ∈ entries →
  out !! dropChars (size root) k = Some v.
Proof.
  revert acc. induction entries as [|[k0 v0] entries IH]; intros acc; simpl.
  - intros _ _ Hin. by apply elem_of_nil in Hin.
  - destruct (substringFrom k0 (size root)) as [outputPath|] eqn:Hsub; [|done].
    apply substringFrom_Ok in Hsub as [_ ->].
    intros Hrun [Hfresh Hnodup]%NoDup_cons [[= -> ->]|Hin]%elem_of_cons.
    + rewrite (rewriteForwardDeclarations_other _ _ _ _ _ Hrun Hfresh).
      by rewrite lookup_insert_eq.
    + by eapply IH.
Qed.

(** X5. Globals without forward declarations pass through: when the input
    globals have no member ["gaffer:forwardDeclarations"], or one that is
    no [CompoundData], [computeGlobals] returns the input globals
    unchanged, whatever the root is. *)
Theorem X5_globals_without_forward_declarations self :
  (∀ fwd, globals (inPlug self) !! "gaffer:forwardDeclarations" ≠ Some (CompoundData fwd)) →
  computeGlobals self = Ok (globals (inPlug self)).
Proof.
  intros Hnone. unfold computeGlobals.
  destruct (globals (inPlug self) !! "gaffer:forwardDeclarations") as [[fwd|other]|] eqn:Hmember;
    [|done..].
  by destruct (Hnone fwd).
Qed.

(** X6. Only the forward declarations are rewritten: whenever
    [computeGlobals] returns, every other member of the globals is the
    member of the input, and the result has forward declarations exactly
    when the input has the member. *)
Theorem X6_globals_other_members self result :
  computeGlobals self = Ok result →
  (∀ name, name ≠ "gaffer:forwardDeclarations" →
     result !! name = globals (inPlug self) !! name) ∧
  (is_Some (result !! "gaffer:forwardDeclarations")
   ↔ is_Some (globals (inPlug self) !! "gaffer:forwardDeclarations")).
Proof.
  unfold computeGlobals.
  destruct (globals (inPlug self) !! "gaffer:forwardDeclarations") as [[fwd|other]|] eqn:Hmember.
  - destruct (rewriteForwardDeclarations _ _ _) as [out|e]; [|done].
    intros [= <-]. split.
    + intros name Hname.
      apply (lookup_insert_ne (M:=gmap string) (A:=Object)). congruence.
    + split; [by eexists|]. intros _. eexists.
      apply (lookup_insert_eq (M:=gmap string) (A:=Object)).
  - intros [= <-]. rewrite Hmember. split; [done|]. split; by eexists.
  - intros [= <-]. rewrite Hmember. done.
Qed.

(** X7. Keys under the root lose the root: when every forward declaration
    key starts with the root string, [computeGlobals] returns, and the
    new forward declarations hold under each remainder what the input held
    under the root string followed by that remainder, and nothing
    else. *)
Theorem X7_globals_keys_under_root self fwd :
  globals (inPlug self) !! "gaffer:forwardDeclarations" = Some (CompoundData fwd) →
  (∀ k, is_Some (fwd !! k) → ∃ rest, k = (rootPlug self +:+ rest)%string) →
  ∃ out,
    computeGlobals self
      = Ok (<["gaffer:forwardDeclarations" := CompoundData out]> (globals (inPlug self))) ∧
    ∀ rest, out !! rest = fwd !! (rootPlug self +:+ rest)%string.
Proof.
  intros Hmember Hprefix. unfold computeGlobals. rewrite Hmember.
  set (root := rootPlug self) in *.
  assert (Forall (λ entry : string * Data, (size root ≤ size entry.1)%nat)
            (map_to_list fwd)) as Hlong.
  { apply Forall_forall. intros [k v] Hin%elem_of_map_to_list. simpl.
    destruct (Hprefix k) as [rest ->]; [by eexists|]. apply size_prefix. }
  apply (rewriteForwardDeclarations_isOk root (map_to_list fwd) ∅) in Hlong.
  destruct (rewriteForwardDeclarations root (map_to_list fwd) ∅) as [out|e] eqn:Hrun;
    [|done].
  exists out. split; [done|].
  assert (NoDup ((λ entry : string * Data, dropChars (size root) entry.1)
                   <$> map_to_list fwd)) as Hnodup.
  { apply NoDup_fmap_2_strong; [|apply NoDup_map_to_list].
    intros [k1 v1] [k2 v2] Hin1%elem_of_map_to_list Hin2%elem_of_map_to_list Heq.
    simpl in Heq.
    destruct (Hprefix k1) as [rest1 ->]; [by eexists|].
    destruct (Hprefix k2) as [rest2 ->]; [by eexists|].
    rewrite !dropChars_prefix in Heq. subst rest2. congruence. }
  intros rest. destruct (fwd !! (root +:+ rest)%string) as [v|] eqn:Hrest.
  - rewrite <- (dropChars_prefix root rest).
    eapply rewriteForwardDeclarations_injective; [done..|].
    by apply elem_of_map_to_list.
  - destruct (out !! rest) as [v|] eqn:Hout; [|done].
    destruct (rewriteForwardDeclarations_lookup _ _ _ _ _ _ Hrun Hout)
      as [Hempty|(k & Hin & ->)]; [by rewrite lookup_empty in Hempty|].
    apply elem_of_map_to_list in Hin.
    destruct (Hprefix k) as [rest' ->]; [by eexists|].
    rewrite dropChars_prefix in Hrest. congruence.
Qed.

End GlobalsMore.

(** The example scene with other globals. *)
Definition withGlobals (members : @CompoundObject Z Z) (scene : @ScenePlug Z Z Z Z Z)
    : @ScenePlug Z Z Z Z Z := {|
  bound := bound scene;
  transform := transform scene;
  attributes := attributes scene;
  object := object scene;
  childNames := childNames scene;
  globals := members;
  boundHash := boundHash scene;
  transformHash := transformHash scene;
  attributesHash := attributesHash scene;
  objectHash := objectHash scene;
  childNamesHash := childNamesHash scene;
  globalsHash := globalsHash scene
|}.

Lemma X5_witness :
  let members : @CompoundObject Z Z := {[ "option:render:camera" := OtherObject 7%Z ]} in
  computeGlobals {| inPlug := withGlobals members (exampleScene ∅); rootPlug := "/group1" |}
    = Ok members.
Proof.
  intros members. apply X5_globals_without_forward_declarations.
  intros fwd Hmember. vm_compute in Hmember. discriminate Hmember.
Defined.

Lemma X6_witness :
  exampleGlobals {[ "/camera" := 1%Z ]} !! "option:render:camera"
    = exampleGlobals {[ "/group1/camera" := 1%Z ]} !! "option:render:camera".
Proof.
  refine (proj1 (X6_globals_other_members
            (exampleSubTree "/group1" {[ "/group1/camera" := 1%Z ]})
            (exampleGlobals {[ "/camera" := 1%Z ]}) _) "option:render:camera" _).
  - vm_compute. reflexivity.
  - discriminate.
Defined.

Lemma X7_witness :
  ∃ out,
    computeGlobals (exampleSubTree "/group1" {[ "/group1/camera" := 1%Z ]})
      = Ok (<["gaffer:forwardDeclarations" := CompoundData out]>
              (exampleGlobals {[ "/group1/camera" := 1%Z ]})) ∧
    ∀ rest, out !! rest
            = ({[ "/group1/camera" := 1%Z ]} : gmap string Z) !! ("/group1" +:+ rest)%string.
Proof.
  apply (X7_globals_keys_under_root (exampleSubTree "/group1" {[ "/group1/camera" := 1%Z ]})
           {[ "/group1/camera" := 1%Z ]}).
  - by vm_compute.
  - intros k [v Hk]. apply lookup_singleton_Some in Hk as [<- _].
    by exists "/camera".
Defined.

End SubTreeExtra.

(** ** More about Reference *)

Module ReferenceExtra.

Import Reference ReferenceProofs.

Section Extra.

Context `{Collaborators}.

(** *** Plugs that are not plugs of the node *)

(** X8. A plug whose parents leave the plugs before they reach the
    reference node (a plug of another node, a plug without parent) is
    taken for a plug of the reference, unless it is the user plug
    itself: neither its name nor its dynamic flag is looked at. *)
Theorem X8_isReferencePlug_outside_the_node plug parent user g :
  ancestorPlug plug parent = None →
  userPlug g = Some user →
  isReferencePlug plug parent g = negb (bool_decide (plugId plug = plugId user)).
Proof.
  intros Hancestor Huser. unfold isReferencePlug. rewrite Hancestor, Huser. simpl.
  case_bool_decide as Hplug.
  - injection Hplug as Hplug. by rewrite bool_decide_eq_true_2.
  - rewrite bool_decide_eq_false_2; [done|]. intros Heq. apply Hplug. by rewrite Heq.
Qed.

(** *** What the copy leaves alone *)

(** The second world differs from the first in inputs and values
    only. *)
Definition tablesOnly (w w' : World) : Prop :=
  log w' = log w ∧
  nodeChildren (graph w') = nodeChildren (graph w) ∧
  elsewhere (graph w') = elsewhere (graph w) ∧
  metadata (graph w') = metadata (graph w) ∧
  m_fileName (graph w') = m_fileName (graph w).

#[local] Instance tablesOnly_preorder : PreOrder tablesOnly.
Proof.
  split.
  - intros w. by repeat split.
  - intros w1 w2 w3 (? & ? & ? & ? & ?) (? & ? & ? & ? & ?).
    repeat split; congruence.
Qed.

Lemma setInput_tablesOnly plug input : Respects tablesOnly (setInput plug input).
Proof.
  intros w. unfold setInput.
  destruct input as [i|]; [destruct (acceptsInput plug i)|]; by repeat split.
Qed.

Lemma setFrom_tablesOnly plug other : Respects tablesOnly (setFrom plug other).
Proof.
  intros w. unfold setFrom, mbind, M_bind, gets. simpl.
  destruct (getValue other (graph w)) as [v|]; [|by repeat split].
  destruct (defaultValue plug) as [d|]; [|by repeat split].
  destruct (sameType d v); by repeat split.
Qed.

(** X9. [copyInputsAndValues] touches the destination only: whether it
    returns or throws, it logs nothing, changes no metadata and no file
    name, and every plug of the script that is not the destination or one
    of its descendants keeps its input and its value.  Nothing is said of
    the children of the destination: an [ArrayPlug] may gain children
    while its input is set. *)
Theorem X9_copy_touches_destination_only srcPlug dstPlug ignoreDefaultValues w :
  let w' := (copyInputsAndValues srcPlug dstPlug ignoreDefaultValues w).2 in
  log w' = log w ∧
  metadata (graph w') = metadata (graph w) ∧
  m_fileName (graph w') = m_fileName (graph w) ∧
  ∀ p, p ∈ allPlugs (graph w) → plugId p ∉ plugId <$> flatten dstPlug →
    inputs (graph w') !! plugId p = inputs (graph w) !! plugId p ∧
    values (graph w') !! plugId p = values (graph w) !! plugId p.
Proof.
  intros w'.
  assert (tablesOnly w w') as (Hlog & _ & _ & Hmeta & Hfile).
  { apply copyInputsAndValues_respects; [typeclasses eauto|..]; intros.
    - apply setInput_tablesOnly.
    - apply setFrom_tablesOnly. }
  destruct (copyInputsAndValues_frame srcPlug dstPlug ignoreDefaultValues w)
    as (_ & _ & Hframe).
  repeat split; try done; by apply Hframe.
Qed.

(** *** Where the outputs go *)

Lemma filter_none {A} (P : A → bool) (l : list A) :
  (∀ x, x ∈ l → P x = false) → List.filter P l = [].
Proof.
  induction l as [|x l IH]; intros Hall; simpl; [done|].
  rewrite (Hall x) by left. apply IH. intros y Hy. apply Hall. by right.
Qed.

Lemma connectChildren_lookup cs ics table x y :
  Forall (λ c, ∀ input table x y,
            connect c input table !! x = Some y →
            ((x ∉ plugId <$> flatten c) ∧ table !! x = Some y)
            ∨ ∃ i, input = Some i ∧ y ∈ plugId <$> flatten i) cs →
  connectChildren cs ics table !! x = Some y →
  ((x ∉ plugId <$> flattenAll cs) ∧ table !! x = Some y)
  ∨ y ∈ plugId <$> flattenAll ics.
Proof.
  intros Hcs. revert ics table.
  induction Hcs as [|c cs Hc _ IH]; intros ics table Hlookup;
    cbn [connectChildren] in Hlookup.
  - left. split; [|done]. unfold flattenAll. simpl. apply not_elem_of_nil.
  - destruct (IH _ _ Hlookup) as [[Hx Hthere]|Hy].
    + destruct (Hc _ _ _ _ Hthere) as [[Hxc Htable]|(i & Hhead & Hy)].
      * left. split; [|done]. rewrite ids_flattenAll_cons.
        by apply not_elem_of_app.
      * right. destruct ics as [|i' ics']; [done|]. simpl in Hhead.
        injection Hhead as ->.
        rewrite ids_flattenAll_cons. apply elem_of_app. by left.
    + right. destruct ics as [|i' ics']; [done|].
      rewrite ids_flattenAll_cons. apply elem_of_app. by right.
Qed.

(** An input a connection leaves in the table was there before, at a
    plug it did not touch, or is a plug of the new input. *)
Lemma connect_lookup plug input table x y :
  connect plug input table !! x = Some y →
  ((x ∉ plugId <$> flatten plug) ∧ table !! x = Some y)
  ∨ ∃ i, input = Some i ∧ y ∈ plugId <$> flatten i.
Proof.
  revert input table x y.
  induction plug as [id name dir dyn def cs IH] using Plug_ind'.
  intros input table x y. rewrite connect_unfold. intros Hlookup.
  apply (connectChildren_lookup _ _ _ _ _ IH) in Hlookup.
  rewrite ids_flatten. simpl in *.
  destruct Hlookup as [[Hx Hthere]|Hy].
  - destruct input as [i|].
    + destruct (decide (id = x)) as [->|Hne].
      * rewrite lookup_insert_eq in Hthere. injection Hthere as <-.
        right. exists i. split; [done|]. rewrite ids_flatten. left.
      * rewrite lookup_insert_ne in Hthere by done.
        left. split; [|done]. by apply not_elem_of_cons.
    + destruct (decide (id = x)) as [->|Hne].
      * by rewrite lookup_delete_eq in Hthere.
      * rewrite lookup_delete_ne in Hthere by done.
        left. split; [|done]. by apply not_elem_of_cons.
  - destruct input as [i|]; [|by apply elem_of_nil in Hy].
    right. exists i. split; [done|]. rewrite ids_flatten. by right.
Qed.

(** No plug gains the plug [id] as its input. *)
Definition noNewOutput (id : PlugId) (w w' : World) : Prop :=
  allPlugs (graph w') = allPlugs (graph w) ∧
  ∀ x, inputs (graph w') !! x = Some id → inputs (graph w) !! x = Some id.

#[local] Instance noNewOutput_preorder id : PreOrder (noNewOutput id).
Proof.
  split.
  - intros w. by split.
  - intros w1 w2 w3 [Hp12 H12] [Hp23 H23]. split; [congruence|].
    intros x Hx. by apply H12, H23.
Qed.

Lemma setInput_noNewOutput id plug input :
  id ∉ plugId <$> flatten input →
  Respects (noNewOutput id) (setInput plug (Some input)).
Proof.
  intros Hid w. unfold setInput.
  destruct (acceptsInput plug input); simpl; [|reflexivity].
  split; [done|]. intros x Hx.
  apply connect_lookup in Hx as [[_ Hx]|(i & [= <-] & Hi)]; done.
Qed.

Lemma transferOutputs_noNewOutput id srcPlug dstPlug :
  id ∉ plugId <$> flatten dstPlug →
  Respects (noNewOutput id) (transferOutputs srcPlug dstPlug).
Proof.
  revert dstPlug.
  induction srcPlug as [sid name dir dyn def cs IH] using Plug_ind'.
  intros dstPlug Hid w. rewrite transferOutputs_unfold.
  generalize (outputs (mkPlug sid name dir dyn def cs) (graph w)). intros outs.
  revert w. apply respects_bind; [typeclasses eauto|..].
  - apply respects_forEach; [typeclasses eauto|]. intros outputPlug _.
    by apply setInput_noNewOutput.
  - intros _. unfold transferChildren. simpl children.
    apply respects_forEach; [typeclasses eauto|]. intros child Hchild.
    destruct (getChild dstPlug (getName child)) as [dstChild|] eqn:Hget;
      [|apply respects_ret; typeclasses eauto].
    rewrite Forall_forall in IH. apply IH; [done|].
    intros Hin. apply Hid.
    eapply ids_flatten_subset; [|done].
    eapply elem_of_flatten_child; [by eapply getChild_elem|apply elem_of_flatten_self].
Qed.

Lemma forEach_setInput_moves id dstPlug outs w :
  id ∉ plugId <$> flatten dstPlug →
  (forEach outs (λ outputPlug, setInput outputPlug (Some dstPlug)) w).1 = Ok () →
  ∀ o, o ∈ outs →
    inputs (graph (forEach outs (λ outputPlug, setInput outputPlug (Some dstPlug)) w).2)
      !! plugId o ≠ Some id.
Proof.
  intros Hid. revert w. induction outs as [|o' outs IH]; intros w Hok o Ho.
  { by apply elem_of_nil in Ho. }
  cbn [forEach] in *. unfold mbind, M_bind in *.
  destruct (setInput o' (Some dstPlug) w) as [[[]|e] w1] eqn:Hset; [|done].
  apply elem_of_cons in Ho as [->|Ho]; [|by apply IH].
  intros Hlookup.
  assert (noNewOutput id w1
            (forEach outs (λ outputPlug, setInput outputPlug (Some dstPlug)) w1).2)
    as [_ Hkeep].
  { apply respects_forEach; [typeclasses eauto|]. intros outputPlug _.
    by apply setInput_noNewOutput. }
  apply Hkeep in Hlookup.
  revert Hset Hlookup. unfold setInput.
  destruct (acceptsInput o' dstPlug); simpl; [|done]. intros [= <-]. simpl.
  intros [[Hx _]|(i & [= <-] & Hi)]%connect_lookup; [|done].
  apply Hx. rewrite ids_flatten. left.
Qed.

(** X10. After [transferOutputs] nothing is fed by the old plug: when
    the old plug is not among the new plug and its descendants and the
    transfer returns, no plug of the script has the old plug as its input
    any more. *)
Theorem X10_transferOutputs_moves_every_output srcPlug dstPlug w :
  plugId srcPlug ∉ plugId <$> flatten dstPlug →
  (transferOutputs srcPlug dstPlug w).1 = Ok () →
  outputs srcPlug (graph (transferOutputs srcPlug dstPlug w).2) = [].
Proof.
  intros Hid. rewrite transferOutputs_unfold. unfold mbind, M_bind.
  destruct (forEach (outputs srcPlug (graph w)) _ w) as [[[]|e] w1] eqn:Hfirst; [|done].
  intros Hok.
  pose proof (forEach_setInput_moves (plugId srcPlug) dstPlug
                (outputs srcPlug (graph w)) w Hid) as Hmoved.
  rewrite Hfirst in Hmoved. specialize (Hmoved eq_refl).
  assert (noNewOutput (plugId srcPlug) w w1) as [Hplugs1 Hkeep1].
  { pose proof (respects_forEach (noNewOutput (plugId srcPlug))
                  (outputs srcPlug (graph w))
                  (λ outputPlug, setInput outputPlug (Some dstPlug))) as Hresp.
    specialize (Hresp (λ o _, setInput_noNewOutput _ o dstPlug Hid) w).
    by rewrite Hfirst in Hresp. }
  assert (noNewOutput (plugId srcPlug) w1
            (transferChildren dstPlug (children srcPlug) w1).2) as [Hplugs2 Hkeep2].
  { unfold transferChildren.
    apply respects_forEach; [typeclasses eauto|]. intros child Hchild w2.
    destruct (getChild dstPlug (getName child)) as [dstChild|] eqn:Hget;
      [|reflexivity].
    apply transferOutputs_noNewOutput. intros Hin. apply Hid.
    eapply ids_flatten_subset; [|done].
    eapply elem_of_flatten_child; [by eapply getChild_elem|apply elem_of_flatten_self]. }
  unfold outputs. rewrite Hplugs2, Hplugs1.
  apply filter_none. intros p Hp. apply bool_decide_eq_false_2. intros Hlookup.
  apply Hkeep2 in Hlookup. apply (Hmoved p); [|done].
  unfold outputs. apply list_elem_of_In, filter_In. split; [by apply list_elem_of_In|].
  apply bool_decide_eq_true_2. by apply Hkeep1.
Qed.

(** X11. [transferOutputs] changes connections only: whether it returns
    or throws, it logs nothing and changes no value, no metadata and no
    plug hierarchy. *)
Theorem X11_transferOutputs_changes_connections_only srcPlug dstPlug w :
  let w' := (transferOutputs srcPlug dstPlug w).2 in
  log w' = log w ∧
  nodeChildren (graph w') = nodeChildren (graph w) ∧
  elsewhere (graph w') = elsewhere (graph w) ∧
  values (graph w') = values (graph w) ∧
  metadata (graph w') = metadata (graph w).
Proof.
  pose (R := λ w w' : World,
      log w' = log w ∧
      nodeChildren (graph w') = nodeChildren (graph w) ∧
      elsewhere (graph w') = elsewhere (graph w) ∧
      values (graph w') = values (graph w) ∧
      metadata (graph w') = metadata (graph w)).
  assert (PreOrder R) as HR.
  { split.
    - intros w0. by repeat split.
    - intros w1 w2 w3 (? & ? & ? & ? & ?) (? & ? & ? & ? & ?).
      repeat split; congruence. }
  apply (transferOutputs_respects R). intros plug input w0. unfold setInput.
  destruct input as [i|]; [destruct (acceptsInput plug i)|]; by repeat split.
Qed.

(** *** What a reconciliation keeps *)

(** A relation between worlds that the steps of a reconciliation keep. *)
Class KeptByTransfer (R : relation World) := {
  kept_preorder :: PreOrder R;
  kept_setName : ∀ plug name, Respects R (setName plug name);
  kept_setFlagsDynamic : ∀ plug, Respects R (setFlagsDynamic plug false);
  kept_removeChildPlug : ∀ id, Respects R (removeChildPlug id);
  kept_setInput : ∀ plug input, Respects R (setInput plug input);
  kept_setFrom : ∀ plug other, Respects R (setFrom plug other);
  kept_registerValue : ∀ target key value persistent,
    Respects R (registerValue target key value persistent);
  kept_emit : ∀ e, Respects R (emit e)
}.

Ltac keeps :=
  repeat lazymatch goal with
  | |- Respects _ (mret _) => apply respects_ret; [typeclasses eauto]
  | |- Respects _ (gets _) => apply respects_gets; [typeclasses eauto]
  | |- Respects _ (throw _) => apply respects_throw; [typeclasses eauto]
  | |- Respects _ (setName _ _) => apply kept_setName
  | |- Respects _ (setFlagsDynamic _ false) => apply kept_setFlagsDynamic
  | |- Respects _ (removeChildPlug _) => apply kept_removeChildPlug
  | |- Respects _ (setInput _ _) => apply kept_setInput
  | |- Respects _ (setFrom _ _) => apply kept_setFrom
  | |- Respects _ (registerValue _ _ _ _) => apply kept_registerValue
  | |- Respects _ (emit _) => apply kept_emit
  | |- Respects _ (copyInputsAndValues _ _ _) =>
      apply copyInputsAndValues_respects; [typeclasses eauto|..]
  | |- Respects _ (transferOutputs _ _) =>
      apply transferOutputs_respects; [typeclasses eauto|]
  | |- Respects _ (convertPersistentMetadata _) => unfold convertPersistentMetadata
  | |- Respects _ (MetadataAlgo_copy _ _) => unfold MetadataAlgo_copy
  | |- Respects _ (transfer _ _ _) => unfold transfer
  | |- Respects _ (reconcile _ _ _) => unfold reconcile
  | |- Respects _ (mbind _ _) => apply respects_bind; [typeclasses eauto|..]
  | |- Respects _ (forEach _ _) => apply respects_forEach; [typeclasses eauto|]
  | |- Respects _ (forEachWith _ _ _) => apply respects_forEachWith; [typeclasses eauto|]
  | |- Respects _ (tryCatch _ _) => apply respects_tryCatch; [typeclasses eauto|..]
  | |- Respects _ (match ?x with _ => _ end) => destruct x
  | |- ∀ _, _ => intros
  end.

Ltac returns :=
  repeat lazymatch goal with
  | |- Total (mret _) => apply total_ret
  | |- Total (gets _) => apply total_gets
  | |- Total (modify _) => apply total_modify
  | |- Total (emit _) => apply total_emit
  | |- Total (setName _ _) => apply total_modify
  | |- Total (setFlagsDynamic _ _) => apply total_modify
  | |- Total (removeChildNode _) => apply total_modify
  | |- Total (convertPersistentMetadata _) => apply total_convertPersistentMetadata
  | |- Total (removeChildPlug _) => apply total_removeChildPlug
  | |- Total (runScript _) => apply total_runScript
  | |- Total (reconcile _ _ _) => apply total_reconcile
  | |- Total (mbind _ _) => apply total_bind
  | |- Total (forEach _ _) => apply total_forEach
  | |- Total (forEachWith _ _ _) => apply total_forEachWith
  | |- Total (match ?x with _ => _ end) => destruct x
  | |- ∀ _, _ => intros
  end.

Ltac primitive :=
  intros;
  let w := fresh "w" in
  intros w;
  unfold setName, setFlagsDynamic, removeChildNode, removeChildPlug, setInput, setFrom,
    registerValue, emit, modify, mbind, M_bind, gets, throw;
  simpl;
  repeat case_match; simpl; try done.

(** *** The child nodes after a load *)

(** The nodes a script adds to the node it is loaded into. *)
Definition scriptNodes (loaded : Loaded) : list Node :=
  omap (λ addition, match addition with
                    | AddChild (NodeComponent n) => Some n
                    | _ => None
                    end) (additions loaded).

Definition nodesOf (cs : list GraphComponent) : list Node :=
  omap (λ c, match c with NodeComponent n => Some n | PlugComponent _ => None end) cs.

Lemma nodesOf_updateComponent id f cs :
  nodesOf (List.map (updateComponent id f) cs) = nodesOf cs.
Proof.
  induction cs as [|[p|n] cs IH]; [done|..]; unfold nodesOf in *; simpl.
  - exact IH.
  - f_equal. exact IH.
Qed.

Lemma nodesOf_removeComponentPlug id cs : nodesOf (removeComponentPlug id cs) = nodesOf cs.
Proof.
  unfold nodesOf, removeComponentPlug.
  induction cs as [|[p|n] cs IH]; [done|..]; cbn [omap list_omap].
  - case_bool_decide; cbn [omap list_omap]; exact IH.
  - cbn [omap list_omap]. f_equal. exact IH.
Qed.

(** The child nodes are those of the first world. *)
Definition sameNodes (w w' : World) : Prop :=
  nodeComponents (graph w') = nodeComponents (graph w).

#[local] Instance sameNodes_preorder : PreOrder sameNodes.
Proof.
  split.
  - by intros w.
  - intros w1 w2 w3 H12 H23. unfold sameNodes in *. congruence.
Qed.

#[local] Instance sameNodes_transfer : KeptByTransfer sameNodes.
Proof.
  split; [typeclasses eauto|..]; try (primitive; fail).
  - intros plug name w. apply nodesOf_updateComponent.
  - intros plug w. apply nodesOf_updateComponent.
  - intros id w. apply nodesOf_removeComponentPlug.
Qed.

Lemma nodesOf_filter keep cs :
  nodesOf (List.filter (λ c, match c with
                             | NodeComponent n => keep n
                             | PlugComponent _ => true
                             end) cs)
    = List.filter keep (nodesOf cs).
Proof.
  unfold nodesOf. induction cs as [|[p|n] cs IH]; [done|..]; simpl.
  - exact IH.
  - destruct (keep n); simpl; [f_equal|]; exact IH.
Qed.

Lemma removeChildNodes_nodes (l : list Node) w :
  nodeComponents (graph (forEach l removeChildNode w).2)
    = List.filter (λ n, forallb (λ node, negb (String.eqb (nodeName n) (nodeName node))) l)
        (nodeComponents (graph w)).
Proof.
  revert w. induction l as [|node l IH]; intros w.
  - simpl. symmetry. induction (nodeComponents (graph w)) as [|n ns IHn]; [done|].
    simpl. by rewrite IHn.
  - cbn [forEach]. unfold mbind, M_bind.
    destruct (removeChildNode node w) as [r w'] eqn:Hremove.
    unfold removeChildNode, modify in Hremove. injection Hremove as <- <-.
    rewrite IH. unfold nodeComponents at 1. simpl.
    rewrite (nodesOf_filter (λ n, negb (String.eqb (nodeName n) (nodeName node)))).
    change (nodesOf (nodeChildren (graph w))) with (nodeComponents (graph w)).
    generalize (nodeComponents (graph w)). intros ns.
    induction ns as [|n ns IHn]; [done|].
    simpl. destruct (negb (nodeName n =? nodeName node)%string); simpl; by rewrite IHn.
Qed.

Lemma removeChildNodes_all w :
  nodeComponents
    (graph (forEach (reverse (nodeComponents (graph w))) removeChildNode w).2) = [].
Proof.
  rewrite removeChildNodes_nodes. apply filter_none. intros n Hn.
  apply not_true_is_false. intros Hall. rewrite forallb_forall in Hall.
  specialize (Hall n). rewrite String.eqb_refl in Hall.
  assert (negb true = true) as Habsurd; [|done].
  by apply Hall, list_elem_of_In, elem_of_reverse.
Qed.

Lemma nodesOf_addToUserPlug plug cs : nodesOf (addToUserPlug plug cs) = nodesOf cs.
Proof. by destruct cs as [|[user|n] cs]. Qed.

Lemma runScript_nodes loaded w :
  nodeComponents (graph (runScript loaded w).2)
    = nodeComponents (graph w) ++ scriptNodes loaded.
Proof.
  unfold runScript, scriptNodes.
  assert (∀ (l : list Addition) (acc : list GraphComponent) w0,
            ∃ newChildren w1,
              forEachWith l acc
                (λ newChildren addition,
                   match addition with
                   | AddChild child =>
                       modify (withNodeChildren (λ cs, cs ++ [child])) ;;
                       mret (newChildren ++ [child])
                   | AddUserPlug plug =>
                       modify (withNodeChildren (addToUserPlug plug)) ;;
                       mret (newChildren ++ [PlugComponent plug])
                   end) w0 = (Ok newChildren, w1) ∧
              nodeComponents (graph w1)
                = nodeComponents (graph w0)
                  ++ omap (λ addition, match addition with
                                       | AddChild (NodeComponent n) => Some n
                                       | _ => None
                                       end) l) as Hloop.
  { induction l as [|addition l IH]; intros acc w0.
    - exists acc, w0. split; [done|]. simpl. by rewrite app_nil_r.
    - cbn [forEachWith]. unfold mbind at 1, M_bind at 1.
      destruct addition as [child|plug]; simpl.
      + destruct (IH (acc ++ [child])
                    (mkWorld (withNodeChildren (λ cs, cs ++ [child]) (graph w0)) (log w0)))
          as (newChildren & w1 & Hrun & Hnodes).
        exists newChildren, w1. split; [done|]. rewrite Hnodes.
        unfold nodeComponents. simpl. rewrite omap_app, <- (assoc_L (++)).
        by destruct child.
      + destruct (IH (acc ++ [PlugComponent plug])
                    (mkWorld (withNodeChildren (addToUserPlug plug) (graph w0)) (log w0)))
          as (newChildren & w1 & Hrun & Hnodes).
        exists newChildren, w1. split; [done|]. rewrite Hnodes.
        unfold nodeComponents. simpl. f_equal.
        apply (nodesOf_addToUserPlug plug (nodeChildren (graph w0))). }
  destruct (Hloop (additions loaded) [] w) as (newChildren & w1 & Hrun & Hnodes).
  unfold mbind at 1, M_bind at 1. rewrite Hrun. simpl. exact Hnodes.
Qed.

Lemma bind_total {A B} (m : M A) (k : A → M B) w :
  Total m → ∃ a, (m ≫= k) w = k a (m w).2.
Proof.
  intros Htotal. destruct (Htotal w) as [a Ha]. exists a.
  unfold mbind, M_bind. destruct (m w) as [r w']. simpl in *. by subst r.
Qed.

Lemma bind_gets {A B} (f : Graph → A) (k : A → M B) w :
  (gets f ≫= k) w = k (f (graph w)) w.
Proof. done. Qed.

(** One statement that establishes a fact, then the rest. *)
Lemma step_with {A B} (Φ P : World → Prop) (m : M A) (k : A → M B) w :
  Total m → P (m w).2 →
  (∀ a w', P w' → Φ (k a w').2) →
  Φ ((m ≫= k) w).2.
Proof.
  intros Htotal HP Hrest. destruct (bind_total m k w Htotal) as [a ->]. by apply Hrest.
Qed.

(** One statement that keeps a relation, then the rest. *)
Lemma step_keeping {A B} (R : relation World) (Φ : World → Prop)
    (m : M A) (k : A → M B) w :
  Total m → Respects R m →
  (∀ a w', R w w' → Φ (k a w').2) →
  Φ ((m ≫= k) w).2.
Proof.
  intros Htotal Hkeeps Hrest. destruct (bind_total m k w Htotal) as [a ->].
  apply Hrest, Hkeeps.
Qed.

(** X13. A load destroys the child nodes: whether it returns or throws,
    the child nodes the reference has after [loadInternal] are the nodes
    the script of the file added, in the order it added them, and none at
    all when the file name is empty. *)
Theorem X13_child_nodes_after_load file w :
  nodeComponents (graph (loadInternal file w).2)
    = if bool_decide (file ≠ EmptyString) then scriptNodes (executeFile file) else [].
Proof.
  set (expected := if bool_decide (file ≠ EmptyString)
                   then scriptNodes (executeFile file) else []).
  set (Φ := λ w' : World, nodeComponents (graph w') = expected).
  change (Φ (loadInternal file w).2). unfold loadInternal.
  eapply (step_keeping sameNodes);
    [returns|keeps|intros plugs w' _; clear w; rename w' into w].
  eapply (step_keeping sameNodes);
    [returns|keeps|intros previousPlugs w' _; clear w; rename w' into w].
  eapply (step_keeping sameNodes);
    [returns|keeps|intros user w' _; clear w; rename w' into w].
  eapply (step_keeping sameNodes);
    [returns|keeps|intros previousPlugs' w' _; clear w; rename w' into w].
  (* the child nodes are taken and removed *)
  rewrite bind_gets.
  eapply (step_with _ (λ w', nodeComponents (graph w') = []));
    [returns|apply removeChildNodes_all|intros _ w1 Hnone; clear w].
  (* the script runs *)
  assert (∀ (k : list GraphComponent * bool → M unit),
            (∀ pair w', nodeComponents (graph w') = expected → Φ (k pair w').2) →
            Φ (((if bool_decide (file ≠ EmptyString)
                 then newChildren ← runScript (executeFile file);
                      mret (newChildren, hadErrors (executeFile file))
                 else mret ([], false)) ≫= k) w1).2) as Hscript.
  { intros k Hk. subst expected. destruct (bool_decide (file ≠ EmptyString)).
    - rewrite bind_assoc.
      destruct (bind_total (runScript (executeFile file))
                  (λ a, mret (a, hadErrors (executeFile file)) ≫= k) w1)
        as [newChildren ->]; [apply total_runScript|].
      apply Hk. by rewrite runScript_nodes, Hnone.
    - by apply Hk. }
  apply Hscript. clear Hscript Hnone w1. intros [newChildren errors] w Hexpected.
  assert (∀ {A} (m : M A) (k : A → M unit) w0,
            Total m → Respects sameNodes m →
            nodeComponents (graph w0) = expected →
            (∀ a w', nodeComponents (graph w') = expected → Φ (k a w').2) →
            Φ ((m ≫= k) w0).2) as Hstep.
  { intros A m k w0 Htotal Hkeeps Hw0 Hrest.
    eapply (step_keeping sameNodes); [done..|].
    intros a w' Hsame. apply Hrest. unfold sameNodes in Hsame. congruence. }
  apply Hstep; [returns|keeps|done|clear w Hexpected; intros _ w Hexpected].
  apply Hstep; [returns|keeps|done|clear w Hexpected; intros milestone w Hexpected].
  apply Hstep; [returns|keeps|done|clear w Hexpected; intros major w Hexpected].
  apply Hstep; [returns|keeps|done|clear w Hexpected; intros _ w Hexpected].
  unfold mbind, M_bind. simpl. by destruct errors.
Qed.

(** *** Metadata of loaded plugs *)

Lemma elem_of_registeredValues target persistentOnly g key :
  key ∈ registeredValues target persistentOnly g ↔
  ∃ value persistent,
    metadata g !! (target, key) = Some (value, persistent) ∧
    (persistentOnly = true → persistent = true).
Proof.
  unfold registeredValues. rewrite list_elem_of_omap. split.
  - intros ([[t k] [v p]] & Hin%elem_of_map_to_list & Hkey).
    case_bool_decide as Ht; simpl in Hkey; [|done]. subst t.
    destruct (negb persistentOnly || p) eqn:Hp; [|done]. injection Hkey as ->.
    exists v, p. split; [done|]. intros ->. by destruct p.
  - intros (v & p & Hlookup & Hp). exists ((target, key), (v, p)).
    split; [by apply elem_of_map_to_list|].
    rewrite bool_decide_eq_true_2 by done. simpl.
    destruct persistentOnly; [by rewrite Hp|done].
Qed.

(** An entry made transient. *)
Definition transient (entry : Data * bool) : Data * bool := (entry.1, false).

Lemma convert_keys id (keys : list string) w :
  let out :=
    forEach keys (λ key,
      entry ← gets (λ g, metadata g !! (Some id, key));
      match entry with
      | Some (value, _) => registerValue (Some id) key value false
      | None => mret ()
      end) w in
  ∀ target key,
    metadata (graph out.2) !! (target, key) =
      if bool_decide (target = Some id ∧ key ∈ keys)
      then transient <$> metadata (graph w) !! (target, key)
      else metadata (graph w) !! (target, key).
Proof.
  revert w. induction keys as [|key0 keys IH]; intros w out target key; subst out.
  - simpl. rewrite bool_decide_eq_false_2; [done|]. intros [_ Hin].
    by apply elem_of_nil in Hin.
  - cbn [forEach]. unfold mbind at 1, M_bind at 1.
    destruct ((entry ← gets (λ g, metadata g !! (Some id, key0));
               match entry with
               | Some (value, _) => registerValue (Some id) key0 value false
               | None => mret ()
               end) w) as [r w1] eqn:Hstep.
    assert (r = Ok () ∧
            ∀ target key,
              metadata (graph w1) !! (target, key) =
                if bool_decide ((target, key) = (Some id, key0))
                then transient <$> metadata (graph w) !! (target, key)
                else metadata (graph w) !! (target, key)) as [-> Hw1].
    { revert Hstep. unfold mbind, M_bind, gets, registerValue, modify. simpl.
      destruct (metadata (graph w) !! (Some id, key0)) as [[v p]|] eqn:Hentry.
      - intros [= <- <-]. split; [done|]. intros t k. simpl.
        case_bool_decide as Heq.
        + rewrite Heq, lookup_insert_eq, Hentry. done.
        + by rewrite lookup_insert_ne.
      - intros [= <- <-]. split; [done|]. intros t k.
        case_bool_decide as Heq; [|done]. by rewrite Heq, Hentry. }
    rewrite IH, !Hw1.
    destruct (decide (target = Some id ∧ key = key0)) as [[-> ->]|Hne].
    + rewrite (bool_decide_eq_true_2 ((Some id, key0) = (Some id, key0))) by done.
      rewrite (bool_decide_eq_true_2 (Some id = Some id ∧ key0 ∈ key0 :: keys))
        by (split; [done|left]).
      case_bool_decide; [|done].
      by destruct (metadata (graph w) !! (Some id, key0)) as [[v p]|].
    + rewrite (bool_decide_eq_false_2 ((target, key) = (Some id, key0)))
        by (intros [= -> ->]; by apply Hne).
      rewrite (bool_decide_ext (target = Some id ∧ key ∈ keys)
                 (target = Some id ∧ key ∈ key0 :: keys)); [done|]. split.
      * intros [-> Hin]. split; [done|]. by right.
      * intros [-> [->|Hin]%elem_of_cons]; [by destruct Hne|done].
Qed.

(** X14. [convertPersistentMetadata] makes the metadata of one plug
    transient and does nothing else: it always returns; every value
    registered on the plug is registered afterwards with the same value
    and not persistent; the metadata of every other plug and of the node,
    and all connections, values, plugs and the log are unchanged. *)
Theorem X14_convertPersistentMetadata plug w :
  let out := convertPersistentMetadata plug w in
  out.1 = Ok () ∧
  (∀ target key,
     metadata (graph out.2) !! (target, key) =
       if bool_decide (target = Some (plugId plug))
       then transient <$> metadata (graph w) !! (target, key)
       else metadata (graph w) !! (target, key)) ∧
  log out.2 = log w ∧
  nodeChildren (graph out.2) = nodeChildren (graph w) ∧
  inputs (graph out.2) = inputs (graph w) ∧
  values (graph out.2) = values (graph w).
Proof.
  intros out. split; [|split].
  - destruct (total_convertPersistentMetadata plug w) as [[] Hok]. exact Hok.
  - intros target key. subst out. unfold convertPersistentMetadata.
    rewrite bind_gets, convert_keys.
    case_bool_decide as Hin; case_bool_decide as Htarget; try done.
    + by destruct Hin.
    + subst target.
      destruct (metadata (graph w) !! (Some (plugId plug), key)) as [[v p]|] eqn:Hentry;
        [|done].
      destruct p; [|done]. exfalso. apply Hin. split; [done|].
      apply elem_of_registeredValues. by exists v, true.
  - pose (R := λ w w' : World,
        log w' = log w ∧
        nodeChildren (graph w') = nodeChildren (graph w) ∧
        inputs (graph w') = inputs (graph w) ∧
        values (graph w') = values (graph w)).
    assert (PreOrder R) as HR.
    { split.
      - intros w0. by repeat split.
      - intros w1 w2 w3 (? & ? & ? & ?) (? & ? & ? & ?). repeat split; congruence. }
    assert (Respects R (convertPersistentMetadata plug)) as Hkeeps.
    { unfold convertPersistentMetadata.
      apply respects_bind; [done|by apply respects_gets|]. intros keys.
      apply respects_forEach; [done|]. intros key _.
      apply respects_bind; [done|by apply respects_gets|].
      intros [[value persistent]|]; [|by apply respects_ret].
      intros w0. by repeat split. }
    apply Hkeeps.
Qed.

(** *** The flags of loaded plugs *)

(** The plugs of the node and their descendants. *)
Definition nodePlugs' (g : Graph) : list Plug := flattenAll (plugChildren g).

Lemma flatten_updatePlug id f (flag : bool → bool) plug q' :
  (∀ p, plugId (f p) = plugId p ∧ children (f p) = children p
        ∧ dynamic (f p) = flag (dynamic p)) →
  q' ∈ flatten (updatePlug id f plug) →
  ∃ q, q ∈ flatten plug ∧ plugId q' = plugId q ∧
       dynamic q' = if bool_decide (plugId q = id) then flag (dynamic q) else dynamic q.
Proof.
  intros Hf. revert q'.
  induction plug as [id' name dir dyn def cs IH] using Plug_ind'.
  intros q'. simpl.
  set (plug' := mkPlug id' name dir dyn def (List.map (updatePlug id f) cs)).
  set (plug := mkPlug id' name dir dyn def cs).
  assert (q' ∈ flattenAll (List.map (updatePlug id f) cs) →
          ∃ q, q ∈ flatten plug ∧ plugId q' = plugId q ∧
               dynamic q' = if bool_decide (plugId q = id)
                            then flag (dynamic q) else dynamic q)
    as Hbelow.
  { intros (c' & Hc' & Hq')%elem_of_flattenAll.
    apply list_elem_of_In, in_map_iff in Hc' as (c & <- & Hc%list_elem_of_In).
    rewrite Forall_forall in IH.
    destruct (IH c Hc q' Hq') as (q & Hq & Hid & Hdyn).
    exists q. split; [|done]. by eapply elem_of_flatten_child. }
  case_bool_decide as Hid.
  - rewrite flatten_unfold. destruct (Hf plug') as (Hfid & Hfchildren & Hfdyn).
    rewrite Hfchildren. simpl children.
    intros [->|Hq']%elem_of_cons; [|by apply Hbelow].
    exists plug. split; [apply elem_of_flatten_self|].
    rewrite Hfid, Hfdyn. split; [done|]. simpl. by rewrite bool_decide_eq_true_2.
  - rewrite flatten_unfold. simpl children.
    intros [->|Hq']%elem_of_cons; [|by apply Hbelow].
    exists plug. split; [apply elem_of_flatten_self|]. split; [done|].
    simpl. by rewrite bool_decide_eq_false_2.
Qed.

Lemma plugChildren_updateComponent id f cs g :
  nodeChildren g = List.map (updateComponent id f) cs →
  plugChildren g
    = List.map (updatePlug id f)
        (omap (λ c, match c with
                    | PlugComponent p => Some p
                    | NodeComponent _ => None
                    end) cs).
Proof.
  unfold plugChildren. intros ->.
  induction cs as [|[p|n] cs IH]; [done|..]; simpl.
  - f_equal. exact IH.
  - exact IH.
Qed.

Lemma nodePlugs_update id f (flag : bool → bool) g q' :
  (∀ p, plugId (f p) = plugId p ∧ children (f p) = children p
        ∧ dynamic (f p) = flag (dynamic p)) →
  q' ∈ nodePlugs' (withNodeChildren (List.map (updateComponent id f)) g) →
  ∃ q, q ∈ nodePlugs' g ∧ plugId q' = plugId q ∧
       dynamic q' = if bool_decide (plugId q = id) then flag (dynamic q) else dynamic q.
Proof.
  intros Hf. unfold nodePlugs'.
  rewrite (plugChildren_updateComponent id f (nodeChildren g)) by done.
  fold (plugChildren g).
  intros (c' & Hc' & Hq')%elem_of_flattenAll.
  apply list_elem_of_In, in_map_iff in Hc' as (c & <- & Hc%list_elem_of_In).
  destruct (flatten_updatePlug id f flag c q' Hf Hq') as (q & Hq & Hid & Hdyn).
  exists q. split; [|done]. apply elem_of_flattenAll. by exists c.
Qed.

(** Below a plug that stays, removal keeps the flags. *)
Lemma flatten_removePlug_dynamic id plug q' :
  q' ∈ flatten (removePlug id plug) →
  ∃ q, q ∈ flatten plug ∧ plugId q' = plugId q ∧ dynamic q' = dynamic q.
Proof.
  revert q'. induction plug as [id' name dir dyn def cs IH] using Plug_ind'.
  intros q'. rewrite removePlug_unfold, !flatten_unfold. simpl.
  intros [->|Hq']%elem_of_cons.
  - eexists. split; [left|]. done.
  - apply elem_of_flattenAll in Hq' as (c' & Hc' & Hq').
    apply elem_of_removeAmong in Hc' as (c & Hc & Hne & ->).
    rewrite Forall_forall in IH. destruct (IH c Hc q' Hq') as (q & Hq & Hid & Hdyn).
    exists q. split; [|done]. right. apply elem_of_flattenAll. by exists c.
Qed.

(** Every plug of the node in the second world was one in the first, and
    was dynamic there if it is dynamic now. *)
Definition lowered (w w' : World) : Prop :=
  ∀ q', q' ∈ nodePlugs' (graph w') →
    ∃ q, q ∈ nodePlugs' (graph w) ∧ plugId q' = plugId q ∧
         (dynamic q' = true → dynamic q = true).

#[local] Instance lowered_preorder : PreOrder lowered.
Proof.
  split.
  - intros w q Hq. by exists q.
  - intros w1 w2 w3 H12 H23 q3 Hq3.
    destruct (H23 q3 Hq3) as (q2 & Hq2 & Hid23 & Hdyn23).
    destruct (H12 q2 Hq2) as (q1 & Hq1 & Hid12 & Hdyn12).
    exists q1. split; [done|]. split; [congruence|]. intros Hdyn. by apply Hdyn12, Hdyn23.
Qed.

Lemma lowered_tables w g' :
  nodeChildren g' = nodeChildren (graph w) → lowered w (mkWorld g' (log w)).
Proof.
  intros Heq q Hq. exists q. split; [|done].
  unfold nodePlugs', plugChildren in *. simpl in Hq. by rewrite Heq in Hq.
Qed.

#[local] Instance lowered_transfer : KeptByTransfer lowered.
Proof.
  split; [typeclasses eauto|..].
  - intros plug name w q' Hq'.
    destruct (nodePlugs_update (plugId plug) (withName name) (λ b, b) (graph w) q')
      as (q & Hq & Hid & Hdyn); [done|exact Hq'|].
    exists q. split; [done|]. split; [done|]. rewrite Hdyn. by case_bool_decide.
  - intros plug w q' Hq'.
    destruct (nodePlugs_update (plugId plug) (withDynamic false) (λ _, false) (graph w) q')
      as (q & Hq & Hid & Hdyn); [done|exact Hq'|].
    exists q. split; [done|]. split; [done|]. rewrite Hdyn. by case_bool_decide.
  - intros id w q' Hq'.
    unfold removeChildPlug, mbind, M_bind, gets, modify, nodePlugs' in Hq'. simpl in Hq'.
    rewrite (plugChildren_removeComponentPlug id (nodeChildren (graph w))) in Hq' by done.
    fold (plugChildren (graph w)) in Hq'.
    apply elem_of_flattenAll in Hq' as (c' & Hc' & Hq').
    apply elem_of_removeAmong in Hc' as (c & Hc & Hne & ->).
    destruct (flatten_removePlug_dynamic id c q' Hq') as (q & Hq & Hid & Hdyn).
    exists q. split; [apply elem_of_flattenAll; by exists c|]. split; [done|].
    by rewrite Hdyn.
  - intros plug input w. unfold setInput.
    destruct input as [i|]; [destruct (acceptsInput plug i)|]; simpl;
      try reflexivity; by apply lowered_tables.
  - intros plug other w. unfold setFrom, mbind, M_bind, gets. simpl.
    destruct (getValue other (graph w)) as [v|]; [|simpl; reflexivity].
    destruct (defaultValue plug) as [d|]; [|simpl; reflexivity].
    destruct (sameType d v); simpl; [by apply lowered_tables|reflexivity].
  - intros target key value persistent w. by apply lowered_tables.
  - intros e w. by intros q Hq; exists q.
Qed.

(** No plug of the node with the identity [x] is dynamic. *)
Definition Cleared (x : PlugId) (w : World) : Prop :=
  ∀ q, q ∈ nodePlugs' (graph w) → plugId q = x → dynamic q = false.

Lemma Cleared_lowered x w w' : lowered w w' → Cleared x w → Cleared x w'.
Proof.
  intros Hlowered Hcleared q' Hq' Hid.
  destruct (Hlowered q' Hq') as (q & Hq & Hid' & Hdyn).
  apply not_true_is_false. intros Htrue.
  assert (dynamic q = false) as Hfalse by (apply Hcleared; [done|congruence]).
  rewrite (Hdyn Htrue) in Hfalse. done.
Qed.

Lemma setFlagsDynamic_Cleared plug w :
  Cleared (plugId plug) (setFlagsDynamic plug false w).2.
Proof.
  intros q' Hq' Hid.
  destruct (nodePlugs_update (plugId plug) (withDynamic false) (λ _, false) (graph w) q')
    as (q & Hq & Hid' & Hdyn); [done|exact Hq'|].
  rewrite Hdyn. rewrite bool_decide_eq_true_2; [done|congruence].
Qed.

(** The children the [childAddedSignal] slots see while a script runs. *)
Definition addedComponents (loaded : Loaded) : list GraphComponent :=
  (λ addition, match addition with
               | AddChild child => child
               | AddUserPlug plug => PlugComponent plug
               end) <$> additions loaded.

(** The plugs a script adds, with their descendants. *)
Definition scriptPlugs (loaded : Loaded) : list Plug :=
  flattenAll (omap (λ c, match c with
                         | PlugComponent p => Some p
                         | NodeComponent _ => None
                         end) (addedComponents loaded)).

Lemma runScript_returns loaded w : (runScript loaded w).1 = Ok (addedComponents loaded).
Proof.
  unfold runScript, addedComponents.
  assert (∀ (l : list Addition) (acc : list GraphComponent) w0,
            ∃ w1,
              forEachWith l acc
                (λ newChildren addition,
                   match addition with
                   | AddChild child =>
                       modify (withNodeChildren (λ cs, cs ++ [child])) ;;
                       mret (newChildren ++ [child])
                   | AddUserPlug plug =>
                       modify (withNodeChildren (addToUserPlug plug)) ;;
                       mret (newChildren ++ [PlugComponent plug])
                   end) w0
              = (Ok (acc ++ ((λ addition, match addition with
                                          | AddChild child => child
                                          | AddUserPlug plug => PlugComponent plug
                                          end) <$> l)), w1)) as Hloop.
  { induction l as [|addition l IH]; intros acc w0.
    - exists w0. simpl. by rewrite app_nil_r.
    - cbn [forEachWith]. unfold mbind at 1, M_bind at 1.
      destruct addition as [child|plug]; simpl.
      + destruct (IH (acc ++ [child])
                    (mkWorld (withNodeChildren (λ cs, cs ++ [child]) (graph w0)) (log w0)))
          as (w1 & Hrun).
        exists w1. rewrite Hrun. by rewrite <- (assoc_L (++)).
      + destruct (IH (acc ++ [PlugComponent plug])
                    (mkWorld (withNodeChildren (addToUserPlug plug) (graph w0)) (log w0)))
          as (w1 & Hrun).
        exists w1. rewrite Hrun. by rewrite <- (assoc_L (++)). }
  destruct (Hloop (additions loaded) [] w) as (w1 & Hrun).
  unfold mbind at 1, M_bind at 1. rewrite Hrun. done.
Qed.

(** The flags of a list of plugs cleared, as the loops of [loadInternal]
    do it. *)
Definition clearEach (plugs : list Plug) : M unit :=
  forEach plugs (λ it, setFlagsDynamic it false ;; convertPersistentMetadata it).

Lemma clearEach_Cleared plugs w :
  lowered w (clearEach plugs w).2 ∧
  ∀ it, it ∈ plugs → Cleared (plugId it) (clearEach plugs w).2.
Proof.
  revert w. induction plugs as [|first rest IH]; intros w.
  - split; [reflexivity|]. intros it Hit. by apply elem_of_nil in Hit.
  - unfold clearEach. cbn [forEach].
    destruct (bind_total (setFlagsDynamic first false ;; convertPersistentMetadata first)
                (λ _, forEach rest
                        (λ it, setFlagsDynamic it false ;; convertPersistentMetadata it)) w)
      as [[] ->]; [returns|].
    set (w1 := ((setFlagsDynamic first false ;; convertPersistentMetadata first) w).2).
    assert (Respects lowered
              (setFlagsDynamic first false ;; convertPersistentMetadata first))
      as Hbody by keeps.
    assert (lowered w w1) as Hlow1 by apply Hbody.
    assert (Cleared (plugId first) w1) as Hfirst.
    { subst w1.
      destruct (bind_total (setFlagsDynamic first false)
                  (λ _, convertPersistentMetadata first) w) as [[] ->]; [returns|].
      eapply Cleared_lowered; [|apply setFlagsDynamic_Cleared].
      assert (Respects lowered (convertPersistentMetadata first)) as Hconvert by keeps.
      apply Hconvert. }
    destruct (IH w1) as [Hlow Hrest]. fold (clearEach rest). split.
    + by etrans.
    + intros it [->|Hit]%elem_of_cons; [|by apply Hrest].
      by eapply Cleared_lowered.
Qed.

(** The loop of [loadInternal] over the new children. *)
Definition clearMembers (newChildren : list GraphComponent) : M unit :=
  forEach newChildren (λ member,
    match member with
    | PlugComponent plug =>
        setFlagsDynamic plug false ;;
        convertPersistentMetadata plug ;;
        forEach (descendants plug) (λ it,
          setFlagsDynamic it false ;;
          convertPersistentMetadata it)
    | NodeComponent _ => mret ()
    end).

Lemma clearMember_clearEach plug w :
  (setFlagsDynamic plug false ;;
   convertPersistentMetadata plug ;;
   forEach (descendants plug) (λ it,
     setFlagsDynamic it false ;;
     convertPersistentMetadata it)) w
  = clearEach (flatten plug) w.
Proof.
  rewrite flatten_unfold. unfold clearEach. cbn [forEach].
  fold (descendants plug). by rewrite bind_assoc.
Qed.

Lemma clearMembers_Cleared newChildren w :
  lowered w (clearMembers newChildren w).2 ∧
  ∀ plug it, PlugComponent plug ∈ newChildren → it ∈ flatten plug →
    Cleared (plugId it) (clearMembers newChildren w).2.
Proof.
  revert w. induction newChildren as [|member rest IH]; intros w.
  - split; [reflexivity|]. intros plug it Hin. by apply elem_of_nil in Hin.
  - unfold clearMembers. cbn [forEach]. fold (clearMembers rest).
    destruct member as [plug|node].
    + destruct (bind_total
                  (setFlagsDynamic plug false ;;
                   convertPersistentMetadata plug ;;
                   forEach (descendants plug) (λ it,
                     setFlagsDynamic it false ;;
                     convertPersistentMetadata it))
                  (λ _, clearMembers rest) w) as [[] ->]; [returns|].
      rewrite clearMember_clearEach.
      destruct (clearEach_Cleared (flatten plug) w) as [Hlow1 Hfirst].
      destruct (IH (clearEach (flatten plug) w).2) as [Hlow Hrest]. split.
      * by etrans.
      * intros plug' it [[= ->]|Hin]%elem_of_cons Hit; [|by eapply Hrest].
        eapply Cleared_lowered; [exact Hlow|]. by apply Hfirst.
    + destruct (bind_total (mret ()) (λ _, clearMembers rest) w) as [[] ->]; [returns|].
      simpl. destruct (IH w) as [Hlow Hrest]. split; [done|].
      intros plug' it [[=]|Hin]%elem_of_cons Hit. by eapply Hrest.
Qed.

(** X15. Loaded plugs are not dynamic: after [loadInternal] of a file,
    whether it returns or throws, no plug of the node that the script of
    the file added, and no descendant of such a plug, has the flag
    [Plug::Dynamic], whatever flags the script gave them. *)
Theorem X15_loaded_plugs_are_not_dynamic file w q :
  file ≠ EmptyString →
  q ∈ flattenAll (plugChildren (graph (loadInternal file w).2)) →
  plugId q ∈ plugId <$> scriptPlugs (executeFile file) →
  dynamic q = false.
Proof.
  intros Hfile Hq Hid.
  set (Φ := λ w' : World, ∀ x, x ∈ plugId <$> scriptPlugs (executeFile file) → Cleared x w').
  assert (Φ (loadInternal file w).2) as Hcleared; [|by apply (Hcleared _ Hid q)].
  clear q Hq Hid. unfold loadInternal.
  eapply (step_keeping sameNodes);
    [returns|keeps|intros plugs w' _; clear w; rename w' into w].
  eapply (step_keeping sameNodes);
    [returns|keeps|intros previousPlugs w' _; clear w; rename w' into w].
  eapply (step_keeping sameNodes);
    [returns|keeps|intros user w' _; clear w; rename w' into w].
  eapply (step_keeping sameNodes);
    [returns|keeps|intros previousPlugs' w' _; clear w; rename w' into w].
  rewrite bind_gets.
  eapply (step_with _ (λ _, True)); [returns|done|intros _ w' _; clear w; rename w' into w].
  rewrite bool_decide_eq_true_2 by done. rewrite bind_assoc.
  pose proof (runScript_returns (executeFile file) w) as Hreturns.
  unfold mbind at 1, M_bind at 1.
  destruct (runScript (executeFile file) w) as [r w1]. simpl in Hreturns. subst r.
  clear w. cbn beta iota. unfold mbind at 1, M_bind at 1. cbn beta iota.
  fold (clearMembers (addedComponents (executeFile file))).
  eapply (step_with _ Φ); [| |intros _ w Hw; clear w1].
  - unfold clearMembers. returns.
  - intros x (it & -> & Hit)%list_elem_of_fmap.
    apply elem_of_flattenAll in Hit as (plug & Hplug & Hit).
    apply list_elem_of_omap in Hplug as ([p|n] & Hin & [= ->]).
    by eapply (proj2 (clearMembers_Cleared _ w1)).
  - assert (∀ {A} (m : M A) (k : A → M unit) w0,
              Total m → Respects lowered m → Φ w0 →
              (∀ a w', Φ w' → Φ (k a w').2) →
              Φ ((m ≫= k) w0).2) as Hstep.
    { intros A m k w0 Htotal Hkeeps Hw0 Hrest.
      eapply (step_keeping lowered); [done..|].
      intros a w' Hlow. apply Hrest. intros x Hx.
      eapply Cleared_lowered; [exact Hlow|by apply Hw0]. }
    apply Hstep; [returns|keeps|done|clear w Hw; intros milestone w Hw].
    apply Hstep; [returns|keeps|done|clear w Hw; intros major w Hw].
    apply Hstep; [returns|keeps|done|clear w Hw; intros _ w Hw].
    unfold mbind, M_bind. simpl.
    destruct (hadErrors (executeFile file)); exact Hw.
Qed.

End Extra.

Lemma X8_witness :
  isReferencePlug (leaf 10 "driver" Out (IntData 0)) OtherParent exampleGraph = true.
Proof.
  apply (X8_isReferencePlug_outside_the_node (leaf 10 "driver" Out (IntData 0)) OtherParent
           (mkPlug 1 "user" In false None
              [mkPlug 2 "note" In true (Some (StringData "")) []]) exampleGraph);
    reflexivity.
Defined.

(** The plug [out] of the example feeds [consumer]; once its outputs are
    transferred to a new [out], nothing is fed by it. *)
Lemma X10_witness :
  let old := leaf 6 "out" Out (IntData 0) in
  let new := leaf 26 "out" Out (IntData 0) in
  outputs old (graph exampleWorld) ≠ [] ∧
  outputs old
    (graph (transferOutputs (H:=exampleCollaborators) old new exampleWorld).2) = [].
Proof.
  intros old new. split; [done|].
  apply (X10_transferOutputs_moves_every_output (H:=exampleCollaborators) old new exampleWorld).
  - vm_compute. intros Hin. apply elem_of_cons in Hin as [Hin|Hin]; [done|].
    by apply elem_of_nil in Hin.
  - vm_compute. reflexivity.
Defined.

(** The file [good.grf] adds [x] under [size] as a dynamic plug; after
    the load it is a plug of the node and is not dynamic. *)
Lemma X15_witness :
  let x := mkPlug 24 "x" In false (Some (IntData 0)) [] in
  x ∈ flattenAll (plugChildren
        (graph (loadInternal (H:=exampleCollaborators) "good.grf" exampleWorld).2)) ∧
  dynamic x = false.
Proof.
  intros x.
  assert (x ∈ flattenAll (plugChildren
            (graph (loadInternal (H:=exampleCollaborators) "good.grf" exampleWorld).2)))
    as Hx by (vm_compute; repeat constructor).
  split; [exact Hx|].
  apply (X15_loaded_plugs_are_not_dynamic (H:=exampleCollaborators)
           "good.grf" exampleWorld x); [done|exact Hx|].
  vm_compute. repeat constructor.
Defined.

End ReferenceExtra.

(** ** The load as a whole *)

Module ReferenceLoad.

Import Reference ReferenceProofs ReferenceExtra.

(** The metadata a script registers, the last registration of a key
    standing. *)
Definition registered (loaded : Loaded) : gmap (Target * string) (Data * bool) :=
  foldl (λ t entry, <[entry.1 := entry.2]> t) ∅ (registrations loaded).

(** The log and the metadata are those of the first world. *)
Definition sameMetadata (w w' : World) : Prop :=
  log w' = log w ∧ metadata (graph w') = metadata (graph w).

(** The log and the metadata of the node are those of the first world. *)
Definition sameNodeMetadata (w w' : World) : Prop :=
  log w' = log w ∧
  ∀ key, metadata (graph w') !! (None, key) = metadata (graph w) !! (None, key).

Section Load.

Context `{Collaborators}.

Lemma bind_ext {A B} (m : M A) (k k' : A → M B) w :
  (∀ a w', k a w' = k' a w') → (m ≫= k) w = (m ≫= k') w.
Proof.
  intros Hk. unfold mbind, M_bind. destruct (m w) as [[a|e] w']; [apply Hk|done].
Qed.

Lemma bind_ret {A B} (a : A) (k : A → M B) w : (mret a ≫= k) w = k a w.
Proof. done. Qed.

(** [loadInternal] is its three parts in a row, the flag read between the
    first and the second. *)
Lemma loadInternal_stages fileName w :
  loadInternal fileName w
  = (staged ← loadContent fileName;
     flag ← gets legacyFlag;
     forEach staged.1 (reconcile fileName flag) ;;
     finishLoad fileName staged.2) w.
Proof.
  unfold loadInternal, loadContent.
  do 6 (rewrite bind_assoc; apply bind_ext; clear w; intros ? w).
  rewrite bind_assoc; apply bind_ext; clear w; intros [newChildren errors] w.
  rewrite bind_assoc; apply bind_ext; clear w; intros _ w.
  reflexivity.
Qed.

Lemma finishLoad_run fileName errors w :
  finishLoad fileName errors w
  = (if errors
     then Throw (IECoreException ("Error loading reference " +:+ quoted fileName))
     else Ok (),
     mkWorld (withFileName fileName (graph w))
       (log w ++ [ReferenceLoaded (withFileName fileName (graph w))])).
Proof. unfold finishLoad. by destruct errors. Qed.

(** One statement after another, while a relation to the first world
    holds. *)
Lemma step_from {A B} (R : relation World) `{!PreOrder R}
    (Φ : Result B * World → Prop) (m : M A) (k : A → M B) w0 w :
  Total m → Respects R m → R w0 w →
  (∀ a w', R w0 w' → Φ (k a w')) →
  Φ ((m ≫= k) w).
Proof.
  intros Htotal Hkeeps Hw Hrest. destruct (bind_total m k w Htotal) as [a ->].
  apply Hrest. etrans; [exact Hw|apply Hkeeps].
Qed.

(** *** Where the versions come from *)

#[local] Instance sameMetadata_preorder : PreOrder sameMetadata.
Proof.
  split.
  - by intros w.
  - intros w1 w2 w3 [? ?] [? ?]. split; congruence.
Qed.

#[local] Instance sameNodeMetadata_preorder : PreOrder sameNodeMetadata.
Proof.
  split.
  - by intros w.
  - intros w1 w2 w3 [Hlog12 H12] [Hlog23 H23]. split; [congruence|].
    intros key. by rewrite H23, H12.
Qed.

Lemma sameMetadata_modify f :
  (∀ g, metadata (f g) = metadata g) → Respects sameMetadata (modify f).
Proof. intros Hf w. split; [done|apply Hf]. Qed.

Lemma sameNodeMetadata_modify f :
  (∀ g, metadata (f g) = metadata g) → Respects sameNodeMetadata (modify f).
Proof. intros Hf w. split; [done|]. intros key. simpl. by rewrite Hf. Qed.

Ltac runs :=
  repeat lazymatch goal with
  | |- Total (mret _) => apply total_ret
  | |- Total (gets _) => apply total_gets
  | |- Total (setName _ _) => apply total_modify
  | |- Total (setFlagsDynamic _ _) => apply total_modify
  | |- Total (removeChildNode _) => apply total_modify
  | |- Total (modify _) => apply total_modify
  | |- Total (convertPersistentMetadata _) => apply total_convertPersistentMetadata
  | |- Total (runScript _) => apply total_runScript
  | |- Total (mbind _ _) => apply total_bind
  | |- Total (forEach _ _) => apply total_forEach
  | |- Total (forEachWith _ _ _) => apply total_forEachWith
  | |- Total (match ?x with _ => _ end) => destruct x
  | |- ∀ _, _ => intros
  end.

Ltac unchanged :=
  repeat lazymatch goal with
  | |- Respects _ (mret _) => apply respects_ret; [typeclasses eauto]
  | |- Respects _ (gets _) => apply respects_gets; [typeclasses eauto]
  | |- Respects sameMetadata (setName _ _) => apply sameMetadata_modify; done
  | |- Respects sameMetadata (removeChildNode _) => apply sameMetadata_modify; done
  | |- Respects sameMetadata (modify _) => apply sameMetadata_modify; done
  | |- Respects sameNodeMetadata (setFlagsDynamic _ _) =>
      apply sameNodeMetadata_modify; done
  | |- Respects _ (mbind _ _) => apply respects_bind; [typeclasses eauto|..]
  | |- Respects _ (forEach _ _) => apply respects_forEach; [typeclasses eauto|]
  | |- Respects _ (forEachWith _ _ _) => apply respects_forEachWith; [typeclasses eauto|]
  | |- Respects _ (match ?x with _ => _ end) => destruct x
  | |- ∀ _, _ => intros
  end.

Lemma sameNodeMetadata_convert plug :
  Respects sameNodeMetadata (convertPersistentMetadata plug).
Proof.
  unfold convertPersistentMetadata. unchanged.
  intros w. split; [done|]. intros key'. simpl.
  by rewrite lookup_insert_ne.
Qed.

Lemma foldl_insert_lookup `{Countable K} {V} (l : list (K * V)) (t : gmap K V) k :
  foldl (λ (t : gmap K V) entry, <[entry.1 := entry.2]> t) t l !! k
  = match foldl (λ (t : gmap K V) entry, <[entry.1 := entry.2]> t) ∅ l !! k with
    | Some v => Some v
    | None => t !! k
    end.
Proof.
  revert t. induction l as [|entry l IH]; intros t; simpl; [done|].
  rewrite (IH (<[entry.1 := entry.2]> t)), (IH (<[entry.1 := entry.2]> ∅)).
  destruct (foldl _ ∅ l !! k); [done|].
  destruct (decide (entry.1 = k)) as [->|Hne].
  - by rewrite !lookup_insert_eq.
  - by rewrite !lookup_insert_ne.
Qed.

Lemma runScript_metadata loaded w :
  log (runScript loaded w).2 = log w ∧
  metadata (graph (runScript loaded w).2)
    = foldl (λ t entry, <[entry.1 := entry.2]> t) (metadata (graph w))
        (registrations loaded).
Proof.
  unfold runScript.
  match goal with
  | |- context [mbind ?k ?m w] =>
      destruct (bind_total m k w) as [newChildren ->];
        [runs|];
        assert (sameMetadata w (m w).2) as [Hlog Hmeta];
        [generalize w; change (Respects sameMetadata m); unchanged|]
  end.
  simpl. by rewrite Hlog, Hmeta.
Qed.

(** What the first part of a load leaves: it returns, with the errors of
    the script; nothing is logged; the metadata of the node is what the
    file registered on it and, under the keys the file did not register,
    what the node had. *)
Lemma loadContent_post fileName w :
  ∃ previousPlugs w1,
    loadContent fileName w = (Ok (previousPlugs, loadErrors fileName), w1) ∧
    log w1 = log w ∧
    ∀ key,
      metadata (graph w1) !! (None, key)
      = match (if bool_decide (fileName ≠ EmptyString)
               then registered (executeFile fileName) !! (None, key)
               else None) with
        | Some entry => Some entry
        | None => metadata (graph w) !! (None, key)
        end.
Proof.
  unfold loadContent.
  set (w0 := w) at 2 3.
  assert (sameMetadata w0 w) as Hw by reflexivity. clearbody w0.
  eapply (step_from sameMetadata);
    [runs|unchanged|exact Hw|clear w Hw; intros plugs w Hw].
  eapply (step_from sameMetadata);
    [runs|unchanged|exact Hw|clear w Hw; intros previousPlugs w Hw].
  eapply (step_from sameMetadata);
    [runs|unchanged|exact Hw|clear w Hw; intros user w Hw].
  eapply (step_from sameMetadata);
    [runs|unchanged|exact Hw|
     clear w Hw previousPlugs; intros previousPlugs w Hw].
  eapply (step_from sameMetadata);
    [runs|unchanged|exact Hw|clear w Hw; intros nodes w Hw].
  eapply (step_from sameMetadata);
    [runs|unchanged|exact Hw|clear w Hw; intros _ w Hw].
  destruct Hw as [Hlog Hmeta]. unfold loadErrors.
  case_bool_decide as Hname; simpl.
  - rewrite bind_assoc.
    destruct (bind_total (runScript (executeFile fileName))
                (λ newChildren,
                   mret (newChildren, hadErrors (executeFile fileName)) ≫=
                   (λ '(newChildren, errors),
                      forEach newChildren (λ member,
                        match member with
                        | PlugComponent plug =>
                            setFlagsDynamic plug false ;;
                            convertPersistentMetadata plug ;;
                            forEach (descendants plug) (λ it,
                              setFlagsDynamic it false ;;
                              convertPersistentMetadata it)
                        | NodeComponent _ => mret ()
                        end) ;;
                      mret (previousPlugs, errors))) w)
      as [newChildren ->]; [runs|].
    destruct (runScript_metadata (executeFile fileName) w) as [Hlog' Hmeta'].
    revert Hlog' Hmeta'. generalize ((runScript (executeFile fileName) w).2).
    intros w' Hlog' Hmeta'. rewrite bind_ret. cbn beta iota.
    match goal with
    | |- context [mbind ?k ?m w'] =>
        destruct (bind_total m k w') as [[] ->]; [runs|];
          assert (Respects sameNodeMetadata m) as Hkeeps
            by (unchanged; apply sameNodeMetadata_convert);
          destruct (Hkeeps w') as [Hlog1 Hmeta1];
          exists previousPlugs, (m w').2
    end.
    split; [done|]. split; [congruence|].
    intros key. rewrite Hmeta1, Hmeta', foldl_insert_lookup, Hmeta. done.
  - exists previousPlugs, w. split; [done|]. split; [done|].
    intros key. by rewrite Hmeta.
Qed.

(** *** What the reconciliation leaves *)

#[local] Existing Instance warned_preorder.
#[local] Existing Instance shrinks_preorder.

Lemma reconcile_all fileName prior previousPlugs w :
  let out := forEach previousPlugs (reconcile fileName prior) w in
  out.1 = Ok () ∧
  warned w out.2 ∧
  ∀ entry, entry ∈ previousPlugs → entry.2 ∉ plugIds (graph out.2).
Proof.
  intros out. subst out. split; [|split].
  - destruct (total_forEach previousPlugs (reconcile fileName prior)
                (total_reconcile fileName prior) w) as [[] Hok].
    exact Hok.
  - apply respects_forEach; [typeclasses eauto|].
    intros entry _. apply warned_reconcile.
  - revert w. induction previousPlugs as [|first rest IH]; intros w entry Hentry.
    { by apply elem_of_nil in Hentry. }
    simpl. unfold mbind, M_bind.
    destruct (total_reconcile fileName prior first w) as [[] Hok].
    pose proof (reconcile_transferred fileName prior first w) as Hround.
    destruct (reconcile fileName prior first w) as [r w1] eqn:Hrun.
    simpl in Hok. subst r.
    apply elem_of_cons in Hentry as [->|Hentry]; [|by apply IH].
    intros Hin.
    assert (shrinks w1 (forEach rest (reconcile fileName prior) w1).2) as Hshrinks.
    { apply respects_forEach; [typeclasses eauto|].
      intros e _. apply shrinks_reconcile. }
    apply Hshrinks in Hin.
    assert (w1 = (removeChildPlug first.2 (transferred fileName prior first w)).2)
      as -> by (by rewrite <- Hround).
    by apply plugIds_removeChildPlug in Hin as [_ Hne].
Qed.

(** [loadInternal] from the world its first part leaves. *)
Lemma loadInternal_run fileName w previousPlugs errors w1 :
  loadContent fileName w = (Ok (previousPlugs, errors), w1) →
  loadInternal fileName w
  = finishLoad fileName errors
      (forEach previousPlugs (reconcile fileName (legacyFlag (graph w1))) w1).2.
Proof.
  intros Hstage. rewrite loadInternal_stages.
  unfold mbind at 1, M_bind at 1. rewrite Hstage. cbn beta iota.
  rewrite bind_gets. cbn [fst snd].
  destruct (reconcile_all fileName (legacyFlag (graph w1)) previousPlugs w1)
    as (Hok & _ & _).
  unfold mbind, M_bind.
  destruct (forEach previousPlugs (reconcile fileName (legacyFlag (graph w1))) w1)
    as [r w2].
  simpl in Hok. by subst r.
Qed.

(** *** The two claims on the load as a whole *)

(** C6. Every execution of [loadInternal] fires the reference-loaded
    signal once, as the last thing it logs after warnings only, with the
    node as it is when the function ends.  That node is the one all
    mutation has left, whether or not the script recorded errors: the
    first part of the function (old plugs renamed, child nodes removed,
    file executed, new plugs post processed) always returns and logs
    nothing; the reconciliation then runs over every previous plug from
    the world the first part left; the graph the signal shows is the
    graph the reconciliation left with the file name recorded, and none
    of the previous plugs is a plug of the node in it.  Only then does
    the function throw its single exception if the load recorded errors,
    and it returns otherwise; the world the caller is left with is the
    one the signal showed. *)
Theorem C6_signal_once_after_all_mutation fileName w :
  let out := loadInternal fileName w in
  ∃ previousPlugs w1 warnings,
    loadContent fileName w = (Ok (previousPlugs, loadErrors fileName), w1) ∧
    log w1 = log w ∧
    (let w2 := (forEach previousPlugs
                  (reconcile fileName (legacyFlag (graph w1))) w1).2 in
     log w2 = log w ++ warnings ∧
     graph out.2 = withFileName fileName (graph w2)) ∧
    (∀ entry, entry ∈ previousPlugs → entry.2 ∉ plugIds (graph out.2)) ∧
    Forall (λ e, isWarning e = true) warnings ∧
    log out.2 = log w ++ warnings ++ [ReferenceLoaded (graph out.2)] ∧
    m_fileName (graph out.2) = fileName ∧
    out.1 = if loadErrors fileName
            then Throw (IECoreException ("Error loading reference " +:+ quoted fileName))
            else Ok ().
Proof.
  intros out.
  destruct (loadContent_post fileName w) as (previousPlugs & w1 & Hstage & Hlog1 & _).
  destruct (reconcile_all fileName (legacyFlag (graph w1)) previousPlugs w1)
    as (_ & (warnings & Hlog2 & Hwarnings) & Hgone).
  exists previousPlugs, w1, warnings. subst out.
  rewrite (loadInternal_run fileName w previousPlugs _ w1 Hstage), finishLoad_run.
  cbn [fst snd graph log].
  split; [done|]. split; [done|]. split; [split; [congruence|done]|].
  split; [exact Hgone|]. split; [done|]. split; [|done].
  by rewrite Hlog2, Hlog1, <- (assoc_L (++)).
Qed.


End Load.



End ReferenceLoad.
